(** * mDNS client: the query / aggregation engine of [client.go]

    A shallow embedding of the client side of the mdns package
    ([ServiceEntry], [newClient], [Close], [sendQuery], [recv],
    [ensureName], [query], [LookupDomain], [Lookup]) together with the
    properties of the aggregation loop.

    Modelling conventions.
    - A Go [error] value is [option error]: [None] is [nil].
    - A [net.IP] is a byte slice that may be [nil]: [option (list byte)].
    - [inprogress] is a [map[string]*ServiceEntry].  Every pointer stored
      in it is allocated by [ensureName] under the key it is stored at and
      is never stored anywhere else, so a [*ServiceEntry] is modelled by
      that key ([ptr]); [nil] is [None]; the map itself is the store the
      pointers refer to, and in-place mutation through a pointer is
      [alter] at its key.
    - The goroutines, the sockets and the clock are the environment: one
      run of [query] is determined by the list of messages that the
      [select] takes from [msgCh] before it takes [finish], each paired
      with whether the consumer of [entries] is ready at that moment.
    - One run of a [recv] goroutine is likewise determined by its turns
      of the loop: what the loop test reads in [c.closed], what [Read]
      returns, and which case its [select] takes.
    - A nil-pointer dereference is the outcome [Panicked]. *)

From Stdlib Require Import ZArith NArith.
From Stdlib.Strings Require Import Byte.
From stdpp Require Import base option gmap strings list fin_maps.

Local Open Scope string_scope.
Local Open Scope list_scope.

#[local] Set Warnings "-clear-no-such-hyp".

(** ** Data model *)

Definition error := string.
Definition IP := option (list byte).
Definition ptr := string.

(** [type ServiceEntry struct] *)
Record ServiceEntry := mkServiceEntry {
  Name : string;
  Addr : IP;
  Port : Z;
  Info : string;
  hasTXT : bool;
  sent : bool
}.

(** The zero value [&ServiceEntry{Name: name}]. *)
Definition newServiceEntry (name : string) : ServiceEntry :=
  {| Name := name; Addr := None; Port := 0%Z; Info := "";
     hasTXT := false; sent := false |}.

Definition set_Port (p : Z) (s : ServiceEntry) : ServiceEntry :=
  {| Name := Name s; Addr := Addr s; Port := p; Info := Info s;
     hasTXT := hasTXT s; sent := sent s |}.

Definition set_Addr (a : IP) (s : ServiceEntry) : ServiceEntry :=
  {| Name := Name s; Addr := a; Port := Port s; Info := Info s;
     hasTXT := hasTXT s; sent := sent s |}.

Definition set_Info (i : string) (s : ServiceEntry) : ServiceEntry :=
  {| Name := Name s; Addr := Addr s; Port := Port s; Info := i;
     hasTXT := hasTXT s; sent := sent s |}.

Definition set_hasTXT (b : bool) (s : ServiceEntry) : ServiceEntry :=
  {| Name := Name s; Addr := Addr s; Port := Port s; Info := Info s;
     hasTXT := b; sent := sent s |}.

Definition set_sent (b : bool) (s : ServiceEntry) : ServiceEntry :=
  {| Name := Name s; Addr := Addr s; Port := Port s; Info := Info s;
     hasTXT := hasTXT s; sent := b |}.

Definition is_nil {T} (x : option T) : bool :=
  match x with None => true | Some _ => false end.

(** [func (s *ServiceEntry) complete() bool] *)
Definition complete (s : ServiceEntry) : bool :=
  negb (is_nil (Addr s)) && negb (Port s =? 0)%Z && hasTXT s.

(** The resource records of the codec that the type switch of [query]
    looks at.  Each carries the owner name of its header; [SRV.Port] is a
    [uint16].  [RR_other] stands for every other record type. *)
Inductive RR :=
| RR_PTR (hdr_name : string) (Ptr : string)
| RR_SRV (hdr_name : string) (port : N) (Target : string)
| RR_TXT (hdr_name : string) (Txt : list string)
| RR_A (hdr_name : string) (a : IP)
| RR_AAAA (hdr_name : string) (aaaa : IP)
| RR_other (hdr_name : string).

Record Msg := mkMsg {
  Question : list (string * N);
  Answer : list RR
}.

Definition TypeANY : N := 255%N.

(** [m := new(dns.Msg); m.SetQuestion(name, t)] *)
Definition SetQuestion (name : string) (t : N) : Msg :=
  {| Question := [(name, t)]; Answer := [] |}.

Definition UDPConn := Z.

Record UDPAddr := mkUDPAddr { addr_IP : list byte; addr_Port : Z }.

(** [type client struct] (the channel and the lock are not modelled). *)
Record client := mkClient {
  ipv4List : option UDPConn;
  ipv6List : option UDPConn;
  closed : bool
}.

(** Lines written with [log.Printf]. *)
Inductive LogLine :=
| LogBindFailed (network : string) (err : error)
| LogQueryFailed (name : string) (err : error).

(** Everything a run does to the outside, plus the map of the lookup. *)
Record World := mkWorld {
  inprogress : gmap string ServiceEntry;
  entries : list ptr;
  dropped : list ptr;
  asked : list Msg;
  wire : list (UDPConn * list byte * UDPAddr * option error);
  logged : list LogLine;
  closed_conns : list UDPConn
}.

Definition set_inprogress (m : gmap string ServiceEntry) (w : World) : World :=
  {| inprogress := m; entries := entries w; dropped := dropped w;
     asked := asked w; wire := wire w; logged := logged w;
     closed_conns := closed_conns w |}.

(** [entries <- inp] taken by the [select]. *)
Definition deliver (p : ptr) (w : World) : World :=
  {| inprogress := inprogress w; entries := entries w ++ [p];
     dropped := dropped w; asked := asked w; wire := wire w;
     logged := logged w; closed_conns := closed_conns w |}.

(** The [default:] branch of the [select]: the entry is not delivered. *)
Definition drop (p : ptr) (w : World) : World :=
  {| inprogress := inprogress w; entries := entries w;
     dropped := dropped w ++ [p]; asked := asked w; wire := wire w;
     logged := logged w; closed_conns := closed_conns w |}.

Definition note_query (q : Msg) (w : World) : World :=
  {| inprogress := inprogress w; entries := entries w;
     dropped := dropped w; asked := asked w ++ [q]; wire := wire w;
     logged := logged w; closed_conns := closed_conns w |}.

Definition note_write (x : UDPConn * list byte * UDPAddr * option error)
    (w : World) : World :=
  {| inprogress := inprogress w; entries := entries w;
     dropped := dropped w; asked := asked w; wire := wire w ++ [x];
     logged := logged w; closed_conns := closed_conns w |}.

Definition Printf (l : LogLine) (w : World) : World :=
  {| inprogress := inprogress w; entries := entries w;
     dropped := dropped w; asked := asked w; wire := wire w;
     logged := logged w ++ [l]; closed_conns := closed_conns w |}.

Definition note_close (l : option UDPConn) (w : World) : World :=
  match l with
  | None => w
  | Some u =>
      {| inprogress := inprogress w; entries := entries w;
         dropped := dropped w; asked := asked w; wire := wire w;
         logged := logged w; closed_conns := closed_conns w ++ [u] |}
  end.

Definition world0 : World :=
  {| inprogress := ∅; entries := []; dropped := []; asked := [];
     wire := []; logged := []; closed_conns := [] |}.

(** How a call ends: it returns its [error] result, or it panics. *)
Inductive Outcome :=
| Returned (err : option error) (w : World)
| Panicked (w : World).

Definition final (o : Outcome) : World :=
  match o with Returned _ w => w | Panicked w => w end.

(** ** Operations on the map and on the client *)

(** [func ensureName(inprogress, name) *ServiceEntry]: the map after the
    call and the pointer returned. *)
Definition ensureName (inprogress : gmap string ServiceEntry) (name : string)
    : gmap string ServiceEntry * ptr :=
  match inprogress !! name with
  | Some _ => (inprogress, name)
  | None => (<[name := newServiceEntry name]> inprogress, name)
  end.

(** One iteration of [for _, answer := range resp.Answer], on the pair
    (map, [inp]). *)
Definition answer_step (st : gmap string ServiceEntry * option ptr) (answer : RR)
    : gmap string ServiceEntry * option ptr :=
  match answer with
  | RR_PTR _ p =>
      let '(m, inp) := ensureName st.1 p in (m, Some inp)
  | RR_SRV _ port target =>
      let '(m, inp) := ensureName st.1 target in
      (alter (set_Port (Z.of_N port)) inp m, Some inp)
  | RR_TXT name txt =>
      let '(m, inp) := ensureName st.1 name in
      (alter (fun s => set_hasTXT true (set_Info (String.concat "|" txt) s)) inp m,
       Some inp)
  | RR_A name a =>
      let '(m, inp) := ensureName st.1 name in
      (alter (set_Addr a) inp m, Some inp)
  | RR_AAAA name aaaa =>
      let '(m, inp) := ensureName st.1 name in
      (alter (set_Addr aaaa) inp m, Some inp)
  | RR_other _ => st
  end.

(** The whole [range] loop over the answers of one message. *)
Definition range_answers (answers : list RR)
    (m : gmap string ServiceEntry) (inp : option ptr)
    : gmap string ServiceEntry * option ptr :=
  fold_left answer_step answers (m, inp).

(** [func newClient()] returning a client pointer and an error, given what the two calls of
    [net.ListenUDP] returned. *)
Definition newClient (r4 r6 : option UDPConn * option error) (w : World)
    : option client * option error * World :=
  let '(ipv4, err) := r4 in
  let w := match err with
           | Some e => Printf (LogBindFailed "udp4" e) w
           | None => w
           end in
  let '(ipv6, err) := r6 in
  let w := match err with
           | Some e => Printf (LogBindFailed "udp6" e) w
           | None => w
           end in
  if is_nil ipv4 && is_nil ipv6 then
    (None, Some "Failed to bind to any udp port!", w)
  else
    (Some {| ipv4List := ipv4; ipv6List := ipv6; closed := false |}, None, w).

(** [func (c *client) Close() error] *)
Definition Close (c : client) (w : World) : client * World :=
  if closed c then (c, w)
  else ({| ipv4List := ipv4List c; ipv6List := ipv6List c; closed := true |},
        note_close (ipv6List c) (note_close (ipv4List c) w)).

(** ** Operations over the codec and the sockets *)

(** What the engine takes from outside: [Pack] of the message codec (the
    buffer and the error), the error returned by the [WriteTo] method of a
    [net.UDPConn], the two multicast group addresses declared with the
    server, and [trimDot], declared with the zone. *)
Class Collaborators := {
  Pack : Msg -> list byte * option error;
  WriteTo : UDPConn -> list byte -> UDPAddr -> option error;
  ipv4Addr : UDPAddr;
  ipv6Addr : UDPAddr;
  trimDot : string -> string
}.

(** [l.WriteTo(buf, addr)] with the results thrown away. *)
Definition write_if_open `{E : Collaborators} (l : option UDPConn)
    (buf : list byte) (addr : UDPAddr) (w : World) : World :=
  match l with
  | None => w
  | Some u => note_write (u, buf, addr, WriteTo u buf addr) w
  end.

(** [func (c *client) sendQuery(q *dns.Msg) error] *)
Definition sendQuery `{E : Collaborators} (c : client) (q : Msg) (w : World)
    : option error * World :=
  let w := note_query q w in
  let '(buf, err) := Pack q in
  match err with
  | Some e => (Some e, w)
  | None =>
      let w := write_if_open (ipv4List c) buf ipv4Addr w in
      let w := write_if_open (ipv6List c) buf ipv6Addr w in
      (None, w)
  end.

(** The body of [case resp := <-msgCh:].  [ready] tells whether the send
    on [entries] can proceed.  [inr] is a panic: [inp.complete()] reads
    [s.Addr] through [inp], which is nil when no case of the switch has
    assigned it.  (A pointer that is not in the map would be a fault as
    well; [on_message_cases] shows that this never happens.) *)
Definition on_message `{E : Collaborators} (c : client) (ev : Msg * bool)
    (w : World) : World + World :=
  let '(resp, ready) := ev in
  let '(m, inp) := range_answers (Answer resp) (inprogress w) None in
  let w := set_inprogress m w in
  match inp with
  | None => inr w
  | Some p =>
      match m !! p with
      | None => inr w
      | Some s =>
          if complete s && negb (sent s) then
            let w := set_inprogress (<[p := set_sent true s]> m) w in
            inl (if ready then deliver p w else drop p w)
          else
            let '(err, w) := sendQuery c (SetQuestion (Name s) TypeANY) w in
            match err with
            | Some e => inl (Printf (LogQueryFailed (Name s) e) w)
            | None => inl w
            end
      end
  end.

(** The [for { select { ... } }] loop: the messages taken before [finish]. *)
Fixpoint query_loop `{E : Collaborators} (c : client) (evs : list (Msg * bool))
    (w : World) : Outcome :=
  match evs with
  | [] => Returned None w
  | ev :: evs' =>
      match on_message c ev w with
      | inl w' => query_loop c evs' w'
      | inr w' => Panicked w'
      end
  end.

(** [func (c *client) query(service, timeout, entries) error] *)
Definition query `{E : Collaborators} (c : client) (service : string) (timeout : Z)
    (evs : list (Msg * bool)) (w : World) : Outcome :=
  let '(err, w) := sendQuery c (SetQuestion service TypeANY) w in
  match err with
  | Some _ => Returned None w
  | None => query_loop c evs (set_inprogress ∅ w)
  end.

(** [func LookupDomain(service, domain, timeout, entries) error]; the
    deferred [client.Close()] runs on return and on panic. *)
Definition LookupDomain `{E : Collaborators} (r4 r6 : option UDPConn * option error)
    (service domain : string) (timeout : Z)
    (evs : list (Msg * bool)) (w : World) : Outcome :=
  match newClient r4 r6 w with
  | (None, err, w) => Returned err w
  | (Some c, _, w) =>
      let serviceAddr := trimDot service +:+ "." +:+ trimDot domain +:+ "." in
      match query c serviceAddr timeout evs w with
      | Returned err w => Returned err (Close c w).2
      | Panicked w => Panicked (Close c w).2
      end
  end.

Definition Second : Z := 1000000000.

(** [func Lookup(service, entries) error] *)
Definition Lookup `{E : Collaborators} (r4 r6 : option UDPConn * option error)
    (service : string) (evs : list (Msg * bool)) (w : World) : Outcome :=
  LookupDomain r4 r6 service "local" Second evs w.

(** ** What one answer does to one name *)

(** The key under which the type switch looks an answer up. *)
Definition rr_key (r : RR) : option string :=
  match r with
  | RR_PTR _ p => Some p
  | RR_SRV _ _ target => Some target
  | RR_TXT name _ | RR_A name _ | RR_AAAA name _ => Some name
  | RR_other _ => None
  end.

(** The assignments the matching case makes through [inp]. *)
Definition rr_update (r : RR) (s : ServiceEntry) : ServiceEntry :=
  match r with
  | RR_PTR _ _ | RR_other _ => s
  | RR_SRV _ port _ => set_Port (Z.of_N port) s
  | RR_TXT _ txt => set_hasTXT true (set_Info (String.concat "|" txt) s)
  | RR_A _ a | RR_AAAA _ a => set_Addr a s
  end.

Definition touches (n : string) (r : RR) : bool := bool_decide (rr_key r = Some n).

Definition is_addr_for (n : string) (r : RR) : bool :=
  match r with RR_A _ _ | RR_AAAA _ _ => touches n r | _ => false end.

Definition is_srv_for (n : string) (r : RR) : bool :=
  match r with RR_SRV _ _ _ => touches n r | _ => false end.

Definition is_txt_for (n : string) (r : RR) : bool :=
  match r with RR_TXT _ _ => touches n r | _ => false end.

(** The record does not carry the zero value of the field it sets: an
    [SRV] has a nonzero port, an [A]/[AAAA] a non-nil address. *)
Definition carries_value (r : RR) : bool :=
  match r with
  | RR_SRV _ port _ => negb (port =? 0)%N
  | RR_A _ a | RR_AAAA _ a => negb (is_nil a)
  | _ => true
  end.

(** [complete()] of the entry stored under [n], false when there is none. *)
Definition entry_complete (n : string) (m : gmap string ServiceEntry) : bool :=
  match m !! n with Some s => complete s | None => false end.

Definition addr_known (o : option ServiceEntry) : bool :=
  match o with Some s => negb (is_nil (Addr s)) | None => false end.

Definition port_known (o : option ServiceEntry) : bool :=
  match o with Some s => negb (Port s =? 0)%Z | None => false end.

Definition txt_known (o : option ServiceEntry) : bool :=
  match o with Some s => hasTXT s | None => false end.

(** What [net.ListenUDP] promises about its two results: the connection
    is nil exactly when the error is not. *)
Definition ListenUDP_result (r : option UDPConn * option error) : Prop :=
  r.1 = None <-> r.2 <> None.

(** The invariant of the loop of [query] over the [entries] channel.
    [e0] and [d0] are what had been delivered and dropped when the call
    started: what the call itself has offered since holds no pointer
    twice, and every entry it has offered is in the map with [sent] set. *)
Definition offered_once (e0 d0 : list ptr) (w : World) : Prop :=
  exists ne nd,
    entries w = e0 ++ ne /\ dropped w = d0 ++ nd /\ NoDup (ne ++ nd) /\
    forall p, p ∈ ne ++ nd ->
      exists s, inprogress w !! p = Some s /\ sent s = true.

(** ** Concrete collaborators used in the examples *)

Definition pack_empty (q : Msg) : list byte * option error := ([], None).

Definition pack_refuses (q : Msg) : list byte * option error :=
  ([], Some "dns: domain must be fully qualified").

Definition write_fails (u : UDPConn) (buf : list byte) (a : UDPAddr)
    : option error := Some "sendto: network is unreachable".

Definition group4 : UDPAddr := {| addr_IP := [xe0; x00; x00; xfb]; addr_Port := 5353 |}.

Definition group6 : UDPAddr :=
  {| addr_IP := [xff; x02; x00; x00; x00; x00; x00; x00;
                 x00; x00; x00; x00; x00; x00; x00; xfb];
     addr_Port := 5353 |}.

Definition keep_name (s : string) : string := s.

(** A codec that refuses every message, and one that packs every message
    over sockets whose writes all fail. *)
Definition refusing_codec : Collaborators :=
  {| Pack := pack_refuses; WriteTo := write_fails;
     ipv4Addr := group4; ipv6Addr := group6; trimDot := keep_name |}.

Definition unreachable_net : Collaborators :=
  {| Pack := pack_empty; WriteTo := write_fails;
     ipv4Addr := group4; ipv6Addr := group6; trimDot := keep_name |}.

(** A codec that packs the question of the service and refuses every
    other question. *)
Definition pack_service_only (q : Msg) : list byte * option error :=
  match Question q with
  | [("_foobar._tcp.local.", _)] => ([x00], None)
  | _ => ([], Some "dns: bad rdata")
  end.

Definition refusing_follow_ups : Collaborators :=
  {| Pack := pack_service_only; WriteTo := write_fails;
     ipv4Addr := group4; ipv6Addr := group6; trimDot := keep_name |}.

(** The two results of [net.ListenUDP] on a host without IPv4. *)
Definition only_udp6 : (option UDPConn * option error) * (option UDPConn * option error) :=
  ((None, Some "listen udp4: address family not supported"), (Some 4%Z, None)).

Definition localhost : IP := Some [x7f; x00; x00; x01].

Definition both_open : client :=
  {| ipv4List := Some 3%Z; ipv6List := Some 4%Z; closed := false |}.

(** ** Notions used to state further properties of the engine *)

(** Every entry of the map carries the key it is stored under as its name. *)
Definition names_ok (m : gmap string ServiceEntry) : Prop :=
  forall k s, m !! k = Some s -> Name s = k.

(** Two answers assign the same field of an entry. *)
Definition same_field (r r' : RR) : bool :=
  match r, r' with
  | RR_SRV _ _ _, RR_SRV _ _ _ => true
  | RR_TXT _ _, RR_TXT _ _ => true
  | (RR_A _ _ | RR_AAAA _ _), (RR_A _ _ | RR_AAAA _ _) => true
  | _, _ => false
  end.

(** The entry holds what the answer assigns. *)
Definition holds_value_of (r : RR) (s : ServiceEntry) : Prop :=
  match r with
  | RR_SRV _ port _ => Port s = Z.of_N port
  | RR_TXT _ txt => Info s = String.concat "|" txt /\ hasTXT s = true
  | RR_A _ a | RR_AAAA _ a => Addr s = a
  | RR_PTR _ _ | RR_other _ => True
  end.

(** The key of the last answer of a message that the switch matches. *)
Definition last_key (answers : list RR) : option string :=
  last (omap rr_key answers).

(** The name is the key of some answer of some received message. *)
Definition seen_key (evs : list (Msg * bool)) (k : string) : Prop :=
  exists ev r, ev ∈ evs /\ r ∈ Answer ev.1 /\ rr_key r = Some k.

(** What [sendQuery] writes for one question: nothing when it does not
    pack, else the buffer once on each open socket, IPv4 first. *)
Definition transmissions `{E : Collaborators} (c : client) (q : Msg)
    : list (UDPConn * list byte * UDPAddr * option error) :=
  match (Pack q).2 with
  | Some _ => []
  | None =>
      match ipv4List c with
      | Some u => [(u, (Pack q).1, ipv4Addr, WriteTo u (Pack q).1 ipv4Addr)]
      | None => []
      end ++
      match ipv6List c with
      | Some u => [(u, (Pack q).1, ipv6Addr, WriteTo u (Pack q).1 ipv6Addr)]
      | None => []
      end
  end.

(** ** The receiving goroutine *)

(** One turn of the loop of [recv], as the goroutine meets it: the value
    of [c.closed] read by the loop test, the result of [l.Read(buf)] (the
    bytes [buf[:n]] and the error), and which case the [select] takes
    when it is reached ([true]: the send on [msgCh]; [false]: the
    receive from [c.closedCh]). *)
Record Turn := mkTurn {
  closed_seen : bool;
  read_result : list byte * option error;
  msg_taken : bool
}.

(** What [recv] has done after some turns: the messages put on [msgCh],
    the errors of [Unpack] it has logged, and whether it has returned. *)
Record Received := mkReceived {
  forwarded : list Msg;
  unpack_failed : list error;
  recv_returned : bool
}.

Definition recv_stop : Received :=
  {| forwarded := []; unpack_failed := []; recv_returned := true |}.

(** The loop [for !c.closed { ... }]; [Unpack] is the one of the codec
    (the message and the error). *)
Fixpoint recv_loop (Unpack : list byte -> Msg * option error)
    (turns : list Turn) : Received :=
  match turns with
  | [] => {| forwarded := []; unpack_failed := []; recv_returned := false |}
  | t :: turns' =>
      if closed_seen t then recv_stop
      else
        let '(data, err) := read_result t in
        match err with
        | Some _ => recv_loop Unpack turns'
        | None =>
            let '(msg, err) := Unpack data in
            match err with
            | Some e =>
                let r := recv_loop Unpack turns' in
                {| forwarded := forwarded r;
                   unpack_failed := e :: unpack_failed r;
                   recv_returned := recv_returned r |}
            | None =>
                if msg_taken t then
                  let r := recv_loop Unpack turns' in
                  {| forwarded := msg :: forwarded r;
                     unpack_failed := unpack_failed r;
                     recv_returned := recv_returned r |}
                else recv_stop
            end
        end
  end.

(** [func (c *client) recv(l *net.UDPConn, msgCh chan *dns.Msg)] *)
Definition recv (Unpack : list byte -> Msg * option error)
    (l : option UDPConn) (turns : list Turn) : Received :=
  match l with
  | None => recv_stop
  | Some _ => recv_loop Unpack turns
  end.

(** The message a turn yields when its datagram is read and decoded
    without error. *)
Definition decoded (Unpack : list byte -> Msg * option error) (t : Turn)
    : option Msg :=
  match (read_result t).2 with
  | Some _ => None
  | None =>
      match (Unpack (read_result t).1).2 with
      | Some _ => None
      | None => Some (Unpack (read_result t).1).1
      end
  end.

(** The error a turn logs: its datagram is read but does not decode. *)
Definition undecodable (Unpack : list byte -> Msg * option error) (t : Turn)
    : option error :=
  match (read_result t).2 with
  | Some _ => None
  | None => (Unpack (read_result t).1).2
  end.

(** A decoder for the examples: a datagram of one byte [x00] is a
    question-only message, any other datagram is malformed. *)
Definition unpack_toy (data : list byte) : Msg * option error :=
  match data with
  | [x00] => (mkMsg [("_foobar._tcp.local.", TypeANY)] [], None)
  | _ => (mkMsg [] [], Some "dns: overflow unpacking")
  end.

(** The world after the body of the [case], however it ends. *)
Definition after `{E : Collaborators} (c : client) (ev : Msg * bool) (w : World)
    : World :=
  match on_message c ev w with inl w' => w' | inr w' => w' end.

(** All the answers of the received messages, in the order in which the
    loop of [query] goes through them. *)
Definition answers_of (evs : list (Msg * bool)) : list RR :=
  flat_map (fun ev => Answer ev.1) evs.

(** The records of one instance arriving one per message, in two orders,
    and with an [SRV] record of port 0. *)
Definition one_by_one : list (Msg * bool) :=
  [(mkMsg [] [RR_A "n" localhost], true);
   (mkMsg [] [RR_TXT "n" ["x"]], false);
   (mkMsg [] [RR_SRV "n" 80 "n"], true)].

Definition one_by_one_srv_first : list (Msg * bool) :=
  [(mkMsg [] [RR_SRV "n" 80 "n"], true);
   (mkMsg [] [RR_A "n" localhost], true);
   (mkMsg [] [RR_TXT "n" ["x"]], true)].

Definition one_by_one_port_zero : list (Msg * bool) :=
  [(mkMsg [] [RR_A "n" localhost], true);
   (mkMsg [] [RR_SRV "n" 0 "n"], true);
   (mkMsg [] [RR_TXT "n" ["x"]], true)].

(** A message with all the records of the instance "n", and the world
    after it has been handled from [world0] with a ready consumer. *)
Definition detail_msg : Msg :=
  mkMsg [] [RR_SRV "n" 80 "n"; RR_TXT "n" ["x"]; RR_A "n" localhost].

Definition after_detail : World :=
  deliver "n"
    (set_inprogress {["n" := mkServiceEntry "n" localhost 80 "x" true true]}
       world0).

Lemma ensureName_ptr m name : (ensureName m name).2 = name.
Proof. unfold ensureName. by destruct (m !! name). Qed.

Lemma ensureName_lookup m name n :
  (ensureName m name).1 !! n =
  if decide (name = n) then Some (default (newServiceEntry name) (m !! name))
  else m !! n.
Proof.
  unfold ensureName. destruct (m !! name) as [s|] eqn:E; simpl.
  - case_decide; [by subst | done].
  - by rewrite lookup_insert.
Qed.

Lemma answer_step_ptr m inp r :
  (answer_step (m, inp) r).2 =
  match rr_key r with Some k => Some k | None => inp end.
Proof.
  destruct r; simpl; try done;
    match goal with |- context [ensureName ?a ?b] =>
      pose proof (ensureName_ptr a b); destruct (ensureName a b); simpl in *;
      by subst
    end.
Qed.

Lemma answer_step_lookup m inp r n :
  (answer_step (m, inp) r).1 !! n =
  if touches n r then Some (rr_update r (default (newServiceEntry n) (m !! n)))
  else m !! n.
Proof.
  unfold touches.
  destruct r; simpl; try done;
    match goal with |- context [ensureName ?a ?b] =>
      pose proof (ensureName_ptr a b) as Hp;
      pose proof (ensureName_lookup a b n) as Hl;
      destruct (ensureName a b) as [m' q]; simpl in *; subst q
    end;
    rewrite ?lookup_alter;
    repeat case_decide; repeat case_bool_decide; simplify_eq;
    rewrite ?Hl; repeat case_decide; simplify_eq; try done;
    by destruct (m !! _).
Qed.

Lemma range_answers_cons r l m inp :
  range_answers (r :: l) m inp =
  range_answers l (answer_step (m, inp) r).1 (answer_step (m, inp) r).2.
Proof. unfold range_answers. simpl. by destruct (answer_step (m, inp) r). Qed.

Lemma range_answers_app l1 l2 m inp :
  range_answers (l1 ++ l2) m inp =
  range_answers l2 (range_answers l1 m inp).1 (range_answers l1 m inp).2.
Proof.
  unfold range_answers. rewrite fold_left_app.
  by destruct (fold_left answer_step l1 (m, inp)).
Qed.

(** The pointer left in [inp] is the key of the last answer the switch
    matched, and it is never dangling. *)
Lemma range_answers_ptr_valid l m inp p :
  (range_answers l m inp).2 = Some p ->
  (forall q, inp = Some q -> is_Some (m !! q)) ->
  is_Some ((range_answers l m inp).1 !! p).
Proof.
  revert m inp. induction l as [|r l IH]; intros m inp Hp Hin.
  - simpl in *. auto.
  - rewrite range_answers_cons in *. apply IH; [done|].
    intros q Hq. rewrite answer_step_ptr in Hq. rewrite answer_step_lookup.
    unfold touches. destruct (rr_key r) as [k|] eqn:Hk.
    + simplify_eq. rewrite bool_decide_eq_true_2 by done. eauto.
    + rewrite bool_decide_eq_false_2 by done. auto.
Qed.

Lemma range_answers_nil_ptr l m :
  (range_answers l m None).2 = None <-> Forall (fun r => rr_key r = None) l.
Proof.
  assert (G : forall inp, (range_answers l m inp).2 = None <->
            inp = None /\ Forall (fun r => rr_key r = None) l).
  { revert m. induction l as [|r l IH]; intros m inp.
    - simpl. split; [intros ->; by split | by intros [-> _]].
    - rewrite range_answers_cons, IH, answer_step_ptr, Forall_cons.
      destruct (rr_key r) as [k|].
      + split; [intros [? _] | intros (_ & ? & _)]; discriminate.
      + split; [intros [? ?] | intros (? & _ & ?)]; by repeat split. }
  rewrite G. split; [by intros [_ ?] | by split].
Qed.

(** ** The completeness predicate *)

(** C2: [complete()] is true exactly when the address is non-nil, the
    port is nonzero and [hasTXT] is set. *)
Theorem complete_iff_addr_port_txt (s : ServiceEntry) :
  complete s = true <-> Addr s <> None /\ Port s <> 0%Z /\ hasTXT s = true.
Proof.
  unfold complete. rewrite !andb_true_iff, !negb_true_iff, Z.eqb_neq.
  destruct (Addr s) as [a|]; simpl.
  - split; [intros [[_ Hp] Ht] | intros (_ & Hp & Ht)]; by repeat split.
  - split; [intros [[Ha _] _]; discriminate | intros (Ha & _); by destruct Ha].
Qed.

Lemma entry_complete_known n m :
  entry_complete n m =
  addr_known (m !! n) && port_known (m !! n) && txt_known (m !! n).
Proof. unfold entry_complete. by destruct (m !! n). Qed.

(** ** Aggregation over a sequence of answers *)

Ltac step_known :=
  intros; rewrite answer_step_lookup;
  match goal with r : RR |- _ => destruct r end;
  simpl in *; unfold touches; simpl;
  repeat case_bool_decide; simplify_eq; simpl;
  rewrite ?orb_false_r, ?orb_true_r; try done;
  try (destruct (_ !! _); simpl);
  rewrite ?orb_false_r, ?orb_true_r; try done.

Lemma step_addr_known m inp r n :
  carries_value r = true ->
  addr_known ((answer_step (m, inp) r).1 !! n) =
  addr_known (m !! n) || is_addr_for n r.
Proof. step_known. Qed.

Lemma step_port_known m inp r n :
  carries_value r = true ->
  port_known ((answer_step (m, inp) r).1 !! n) =
  port_known (m !! n) || is_srv_for n r.
Proof.
  step_known;
    match goal with H : negb (_ =? 0)%N = true |- _ =>
      apply negb_true_iff, N.eqb_neq in H
    end; apply negb_true_iff, Z.eqb_neq; lia.
Qed.

Lemma step_txt_known m inp r n :
  txt_known ((answer_step (m, inp) r).1 !! n) =
  txt_known (m !! n) || is_txt_for n r.
Proof. step_known. Qed.

Lemma range_addr_known l : forall m inp n,
  Forall (fun r => carries_value r = true) l ->
  addr_known ((range_answers l m inp).1 !! n) =
  addr_known (m !! n) || existsb (is_addr_for n) l.
Proof.
  induction l as [|r l IH]; intros m inp n Hv.
  - simpl. by rewrite orb_false_r.
  - apply Forall_cons in Hv as [Hr Hl].
    rewrite range_answers_cons, IH, step_addr_known by done.
    simpl. by rewrite orb_assoc.
Qed.

Lemma range_port_known l : forall m inp n,
  Forall (fun r => carries_value r = true) l ->
  port_known ((range_answers l m inp).1 !! n) =
  port_known (m !! n) || existsb (is_srv_for n) l.
Proof.
  induction l as [|r l IH]; intros m inp n Hv.
  - simpl. by rewrite orb_false_r.
  - apply Forall_cons in Hv as [Hr Hl].
    rewrite range_answers_cons, IH, step_port_known by done.
    simpl. by rewrite orb_assoc.
Qed.

Lemma range_txt_known l : forall m inp n,
  txt_known ((range_answers l m inp).1 !! n) =
  txt_known (m !! n) || existsb (is_txt_for n) l.
Proof.
  induction l as [|r l IH]; intros m inp n.
  - simpl. by rewrite orb_false_r.
  - rewrite range_answers_cons, IH, step_txt_known.
    simpl. by rewrite orb_assoc.
Qed.

Lemma existsb_Permutation {T} (f : T -> bool) (l l' : list T) :
  l ≡ₚ l' -> existsb f l = existsb f l'.
Proof.
  induction 1 as [|x l l' _ IH|x y l|l l' l'' _ IH1 _ IH2]; simpl.
  - done.
  - by rewrite IH.
  - by rewrite !orb_assoc, (orb_comm (f y)).
  - congruence.
Qed.


(** Within the answers of one message: starting from a map without the
    name, and when every [SRV] carries a nonzero port and every
    [A]/[AAAA] a non-nil address, the entry of the name is complete after
    the answers, taken in any order, exactly when an address record, an
    [SRV] record and a [TXT] record for the name are among them. *)
Theorem complete_iff_each_kind_seen_any_order
    (n : string) (m : gmap string ServiceEntry) (inp : option ptr)
    (l l' : list RR) :
  m !! n = None ->
  Forall (fun r => carries_value r = true) l ->
  l ≡ₚ l' ->
  (entry_complete n (range_answers l' m inp).1 = true <->
   existsb (is_addr_for n) l = true /\
   existsb (is_srv_for n) l = true /\
   existsb (is_txt_for n) l = true).
Proof.
  intros Hfresh Hv Hperm.
  assert (Hv' : Forall (fun r => carries_value r = true) l')
    by (by rewrite <- Hperm).
  rewrite entry_complete_known, range_addr_known, range_port_known,
    range_txt_known, Hfresh by done.
  simpl. rewrite <- !(existsb_Permutation _ l l') by done.
  rewrite !andb_true_iff. tauto.
Qed.

Lemma complete_iff_each_kind_seen_any_order_witness :
  entry_complete "n"
    (range_answers
       [RR_SRV "n" 80 "n"; RR_A "n" (Some [x7f; x00; x00; x01]); RR_TXT "n" ["x"]]
       ∅ None).1 = true <->
  existsb (is_addr_for "n")
    [RR_A "n" (Some [x7f; x00; x00; x01]); RR_SRV "n" 80 "n"; RR_TXT "n" ["x"]] = true /\
  existsb (is_srv_for "n")
    [RR_A "n" (Some [x7f; x00; x00; x01]); RR_SRV "n" 80 "n"; RR_TXT "n" ["x"]] = true /\
  existsb (is_txt_for "n")
    [RR_A "n" (Some [x7f; x00; x00; x01]); RR_SRV "n" 80 "n"; RR_TXT "n" ["x"]] = true.
Proof.
  apply (complete_iff_each_kind_seen_any_order "n" ∅ None).
  - reflexivity.
  - repeat constructor.
  - apply perm_swap.
Defined.

(** Within one message the unrestricted statement fails: an address
    record, an [SRV] record and a [TXT] record for the name have all been
    processed, yet the entry is not complete, because the [SRV] record
    carries port 0. *)
Lemma each_kind_seen_but_incomplete :
  ~ (entry_complete "n"
       (range_answers
          [RR_A "n" (Some [x7f; x00; x00; x01]); RR_SRV "n" 0 "n"; RR_TXT "n" ["x"]]
          ∅ None).1 = true <->
     existsb (is_addr_for "n")
       [RR_A "n" (Some [x7f; x00; x00; x01]); RR_SRV "n" 0 "n"; RR_TXT "n" ["x"]] = true /\
     existsb (is_srv_for "n")
       [RR_A "n" (Some [x7f; x00; x00; x01]); RR_SRV "n" 0 "n"; RR_TXT "n" ["x"]] = true /\
     existsb (is_txt_for "n")
       [RR_A "n" (Some [x7f; x00; x00; x01]); RR_SRV "n" 0 "n"; RR_TXT "n" ["x"]] = true).
Proof.
  intros [_ H].
  assert (E : entry_complete "n"
       (range_answers
          [RR_A "n" (Some [x7f; x00; x00; x01]); RR_SRV "n" 0 "n"; RR_TXT "n" ["x"]]
          ∅ None).1 = false) by (vm_compute; reflexivity).
  rewrite E in H. discriminate H. repeat split; vm_compute; reflexivity.
Qed.

(** The order matters when the records carry different ports: the last
    [SRV] wins. *)
Example srv_order_matters :
  entry_complete "n"
    (range_answers
       [RR_A "n" (Some [x7f; x00; x00; x01]); RR_TXT "n" ["x"];
        RR_SRV "n" 0 "n"; RR_SRV "n" 80 "n"] ∅ None).1 = true /\
  entry_complete "n"
    (range_answers
       [RR_A "n" (Some [x7f; x00; x00; x01]); RR_TXT "n" ["x"];
        RR_SRV "n" 80 "n"; RR_SRV "n" 0 "n"] ∅ None).1 = false.
Proof. split; vm_compute; reflexivity. Qed.

(** ** Monotonicity of an entry *)

Lemma rr_update_keeps r s :
  Name (rr_update r s) = Name s /\
  sent (rr_update r s) = sent s /\
  (hasTXT s = true -> hasTXT (rr_update r s) = true) /\
  (carries_value r = true ->
   (Addr s <> None -> Addr (rr_update r s) <> None) /\
   (Port s <> 0%Z -> Port (rr_update r s) <> 0%Z)).
Proof.
  destruct r; simpl; (split; [done|]); (split; [done|]); (split; [done|]);
    intros Hv; split; intros Hx; try done.
  - apply negb_true_iff, N.eqb_neq in Hv. lia.
  - by destruct a.
  - by destruct aaaa.
Qed.




(** The same happens with an address record that carries a nil address,
    and a [TXT] record without text replaces [Info] by the empty string. *)
Example nil_address_clears_complete_entry :
  entry_complete "n"
    (range_answers [RR_A "n" None]
       {["n" := mkServiceEntry "n" (Some [x7f; x00; x00; x01]) 80 "x" true false]}
       None).1 = false /\
  Info <$> (range_answers [RR_TXT "n" []]
       {["n" := mkServiceEntry "n" (Some [x7f; x00; x00; x01]) 80 "x" true false]}
       None).1 !! "n" = Some "".
Proof. split; vm_compute; reflexivity. Qed.

(** ** Opening the client *)

(** C7: [newClient] returns an error exactly when both binds failed;
    otherwise it returns a client that holds the connections that were
    opened, at least one of them, and no error. *)
Theorem newClient_fails_iff_both_binds_fail
    (r4 r6 : option UDPConn * option error) (w : World) :
  ListenUDP_result r4 -> ListenUDP_result r6 ->
  ((newClient r4 r6 w).1.2 <> None <-> r4.2 <> None /\ r6.2 <> None) /\
  ((newClient r4 r6 w).1.1 = None <-> (newClient r4 r6 w).1.2 <> None) /\
  (forall c, (newClient r4 r6 w).1.1 = Some c ->
     ipv4List c = r4.1 /\ ipv6List c = r6.1 /\ closed c = false /\
     (ipv4List c <> None \/ ipv6List c <> None)).
Proof.
  unfold ListenUDP_result, newClient.
  destruct r4 as [[u4|] e4], r6 as [[u6|] e6]; simpl; intros H4 H6;
    (split; [|split]);
    try (intros c Hc; simplify_eq; simpl; intuition congruence);
    intuition congruence.
Qed.

Lemma newClient_fails_iff_both_binds_fail_witness :
  ((newClient only_udp6.1 only_udp6.2 world0).1.2 <> None <->
   Some "listen udp4: address family not supported" <> None /\ @None error <> None) /\
  ((newClient only_udp6.1 only_udp6.2 world0).1.1 = None <->
   (newClient only_udp6.1 only_udp6.2 world0).1.2 <> None) /\
  (forall c,
     (newClient only_udp6.1 only_udp6.2 world0).1.1 = Some c ->
     ipv4List c = None /\ ipv6List c = Some 4%Z /\ closed c = false /\
     (ipv4List c <> None \/ ipv6List c <> None)).
Proof.
  apply (newClient_fails_iff_both_binds_fail only_udp6.1 only_udp6.2 world0).
  - unfold ListenUDP_result. simpl. split; [discriminate | reflexivity].
  - unfold ListenUDP_result. simpl. split; [discriminate | intros H; by destruct H].
Defined.

Example newClient_both_fail :
  (newClient (None, Some "e4") (None, Some "e6") world0).1 =
  (None, Some "Failed to bind to any udp port!").
Proof. reflexivity. Qed.

(** ** Sending a query *)

Lemma sendQuery_err `{E : Collaborators} c q w : (sendQuery c q w).1 = (Pack q).2.
Proof. unfold sendQuery. by destruct (Pack q) as [buf [e|]]. Qed.

(** C10: the error of [sendQuery] is the error of [Pack], whatever the
    socket writes return: it is non-nil exactly when packing fails. *)
Theorem sendQuery_error_iff_pack_fails `{E : Collaborators} (c : client) (q : Msg) (w : World) :
  (sendQuery c q w).1 = (Pack q).2 /\
  ((sendQuery c q w).1 <> None <-> (Pack q).2 <> None).
Proof.
  unfold sendQuery.
  destruct (Pack q) as [buf [e|]]; simpl; split; (reflexivity || tauto).
Qed.

Lemma write_if_open_frame `{E : Collaborators} l buf a w :
  inprogress (write_if_open l buf a w) = inprogress w /\
  entries (write_if_open l buf a w) = entries w /\
  dropped (write_if_open l buf a w) = dropped w /\
  asked (write_if_open l buf a w) = asked w.
Proof. by destruct l. Qed.

(** [sendQuery] touches neither the map nor the [entries] channel, and
    counts as one more question asked. *)
Lemma sendQuery_frame `{E : Collaborators} c q w :
  inprogress (sendQuery c q w).2 = inprogress w /\
  entries (sendQuery c q w).2 = entries w /\
  dropped (sendQuery c q w).2 = dropped w /\
  asked (sendQuery c q w).2 = asked w ++ [q].
Proof.
  unfold sendQuery. destruct (Pack q) as [buf [e|]]; simpl; [done|].
  repeat match goal with |- context [write_if_open ?l ?b ?a ?w] =>
    let H := fresh in
    destruct (write_if_open_frame l b a w) as (-> & -> & -> & ->)
  end. done.
Qed.

(** ** One received message *)

Lemma range_answers_sent l : forall m inp p s,
  m !! p = Some s -> sent s = true ->
  exists s', (range_answers l m inp).1 !! p = Some s' /\ sent s' = true.
Proof.
  induction l as [|r l IH]; intros m inp p s Hs Hsent.
  - exists s. by simpl.
  - rewrite range_answers_cons.
    pose proof (answer_step_lookup m inp r p) as Hstep.
    rewrite Hs in Hstep. simpl in Hstep.
    destruct (touches p r).
    + apply (IH _ _ _ _ Hstep).
      destruct (rr_update_keeps r s) as (_ & -> & _). done.
    + by apply (IH _ _ _ _ Hstep).
Qed.

(** The three ways the body of the [case] can go. *)
Lemma on_message_cases `{E : Collaborators} c resp ready w :
  match (range_answers (Answer resp) (inprogress w) None).2 with
  | None =>
      on_message c (resp, ready) w =
      inr (set_inprogress (range_answers (Answer resp) (inprogress w) None).1 w)
  | Some p =>
      exists s,
        (range_answers (Answer resp) (inprogress w) None).1 !! p = Some s /\
        if complete s && negb (sent s) then
          on_message c (resp, ready) w =
          inl ((if ready then deliver p else drop p)
                 (set_inprogress
                    (<[p := set_sent true s]>
                       (range_answers (Answer resp) (inprogress w) None).1) w))
        else
          exists w', on_message c (resp, ready) w = inl w' /\
            inprogress w' = (range_answers (Answer resp) (inprogress w) None).1 /\
            entries w' = entries w /\ dropped w' = dropped w /\
            asked w' = asked w ++ [SetQuestion (Name s) TypeANY]
  end.
Proof.
  unfold on_message.
  pose proof (range_answers_ptr_valid (Answer resp) (inprogress w) None) as Hvalid.
  destruct (range_answers (Answer resp) (inprogress w) None) as [m [p|]];
    simpl in *; [|done].
  destruct (Hvalid p eq_refl) as [s Hs]; [by intros q Hq|].
  exists s. split; [done|]. rewrite Hs.
  destruct (complete s && negb (sent s)).
  - by destruct ready.
  - pose proof (sendQuery_frame c (SetQuestion (Name s) TypeANY)
                  (set_inprogress m w)) as (F1 & F2 & F3 & F4).
    destruct (sendQuery c (SetQuestion (Name s) TypeANY) (set_inprogress m w))
      as [[e|] w']; simpl in *; eexists; (split; [reflexivity|]); by simpl.
Qed.

(** The body of the [case] panics exactly when no answer of the message
    is a [PTR], [SRV], [TXT], [A] or [AAAA] record. *)
Lemma on_message_panics_iff `{E : Collaborators} c resp ready w :
  (exists w', on_message c (resp, ready) w = inr w') <->
  Forall (fun r => rr_key r = None) (Answer resp).
Proof.
  rewrite <- (range_answers_nil_ptr (Answer resp) (inprogress w)).
  pose proof (on_message_cases c resp ready w) as H.
  destruct ((range_answers (Answer resp) (inprogress w) None).2) as [p|].
  - destruct H as (s & _ & H). split; [|done]. intros [w' Hw'].
    destruct (complete s && negb (sent s)).
    + congruence.
    + destruct H as (w'' & H & _). congruence.
  - split; [done|]. eauto.
Qed.

Lemma on_message_offered_once `{E : Collaborators} e0 d0 c ev w :
  offered_once e0 d0 w ->
  offered_once e0 d0
    (match on_message c ev w with inl w' => w' | inr w' => w' end).
Proof.
  intros (ne & nd & He & Hd & Hnd & Hs). destruct ev as [resp ready].
  pose proof (on_message_cases c resp ready w) as H.
  set (m := (range_answers (Answer resp) (inprogress w) None).1) in *.
  assert (Hkeep : forall p, p ∈ ne ++ nd ->
            exists s, m !! p = Some s /\ sent s = true).
  { intros p Hp. destruct (Hs p Hp) as (s & Hl & Hsent).
    apply (range_answers_sent _ _ _ _ _ Hl Hsent). }
  destruct ((range_answers (Answer resp) (inprogress w) None).2) as [p|].
  - destruct H as (s & Hl & H).
    destruct (complete s && negb (sent s)) eqn:Hc.
    + rewrite H. apply andb_true_iff in Hc as [_ Hunsent].
      assert (Hfresh : p ∉ ne ++ nd).
      { intros Hp. destruct (Hkeep p Hp) as (s' & Hl' & Hsent).
        rewrite Hl in Hl'. simplify_eq. by rewrite Hsent in Hunsent. }
      assert (Hmap : forall q, q ∈ p :: ne ++ nd ->
                exists s', <[p := set_sent true s]> m !! q = Some s' /\ sent s' = true).
      { intros q Hq. rewrite lookup_insert. case_decide.
        - by eexists.
        - apply elem_of_cons in Hq as [->|Hq]; [done|]. by apply Hkeep. }
      destruct ready; simpl.
      * exists (ne ++ [p]), nd. simpl. rewrite He, Hd.
        split; [by rewrite app_assoc|]. split; [done|]. split.
        -- rewrite <- app_assoc. simpl. rewrite <- Permutation_middle.
           by apply NoDup_cons.
        -- intros q Hq. apply Hmap.
           rewrite <- app_assoc in Hq. simpl in Hq.
           by rewrite <- Permutation_middle in Hq.
      * exists ne, (nd ++ [p]). simpl. rewrite He, Hd.
        split; [done|]. split; [by rewrite app_assoc|]. split.
        -- rewrite app_assoc, <- Permutation_cons_append. by apply NoDup_cons.
        -- intros q Hq. apply Hmap.
           by rewrite app_assoc, <- Permutation_cons_append in Hq.
    + destruct H as (w' & -> & F1 & F2 & F3 & _).
      exists ne, nd. rewrite F1, F2, F3. by repeat split.
  - rewrite H. exists ne, nd. by repeat split.
Qed.

(** ** The loop and the whole lookup *)

Lemma query_loop_offered_once `{E : Collaborators} e0 d0 c evs : forall w,
  offered_once e0 d0 w -> offered_once e0 d0 (final (query_loop c evs w)).
Proof.
  induction evs as [|ev evs IH]; intros w Hw; simpl; [done|].
  pose proof (on_message_offered_once e0 d0 c ev w Hw) as Hstep.
  destruct (on_message c ev w) as [w'|w']; simpl; [by apply IH | done].
Qed.

(** C3: whatever is received during one call of [query], and whether the
    call returns or panics, the pointers it has offered to the [entries]
    channel (taken by the consumer or not) are pairwise distinct: no entry
    is sent twice. *)
Theorem query_sends_each_entry_at_most_once `{E : Collaborators}
    (c : client) (service : string) (timeout : Z)
    (evs : list (Msg * bool)) (w : World) :
  exists ne nd,
    entries (final (query c service timeout evs w)) = entries w ++ ne /\
    dropped (final (query c service timeout evs w)) = dropped w ++ nd /\
    NoDup (ne ++ nd).
Proof.
  unfold query.
  pose proof (sendQuery_frame c (SetQuestion service TypeANY) w)
    as (_ & F2 & F3 & _).
  destruct (sendQuery c (SetQuestion service TypeANY) w) as [[e|] w1];
    simpl in *.
  - exists [], []. rewrite F2, F3, !app_nil_r. repeat split. constructor.
  - assert (H0 : offered_once (entries w) (dropped w) (set_inprogress ∅ w1)).
    { exists [], []. simpl. rewrite F2, F3, !app_nil_r. repeat split.
      - constructor.
      - intros p Hp. by apply elem_of_nil in Hp. }
    destruct (query_loop_offered_once _ _ c evs _ H0)
      as (ne & nd & He & Hd & Hnd & _).
    by exists ne, nd.
Qed.

Lemma query_loop_cons `{E : Collaborators} c ev evs w :
  query_loop c (ev :: evs) w =
  match on_message c ev w with
  | inl w' => query_loop c evs w'
  | inr w' => Panicked w'
  end.
Proof. reflexivity. Qed.

(** Every path of [query] that returns, returns nil. *)
Lemma query_loop_returns_nil `{E : Collaborators} c evs : forall w e w',
  query_loop c evs w = Returned e w' -> e = None.
Proof.
  induction evs as [|ev evs IH]; intros w e w'; simpl.
  - congruence.
  - destruct (on_message c ev w); [apply IH | discriminate].
Qed.

Lemma query_returns_nil `{E : Collaborators} c service timeout evs w e w' :
  query c service timeout evs w = Returned e w' -> e = None.
Proof.
  unfold query.
  destruct (sendQuery c (SetQuestion service TypeANY) w) as [[e0|] w1].
  - congruence.
  - apply query_loop_returns_nil.
Qed.

(** When every message holds an answer that the switch matches, the loop
    runs to the timeout and returns. *)
Lemma query_loop_returns `{E : Collaborators} c evs : forall w,
  Forall (fun ev => Exists (fun r => rr_key r <> None) (Answer ev.1)) evs ->
  exists w', query_loop c evs w = Returned None w'.
Proof.
  induction evs as [|[resp ready] evs IH]; intros w Hall; [simpl; eauto|].
  apply Forall_cons in Hall as [Hev Hall]. simpl in Hev.
  rewrite query_loop_cons.
  destruct (on_message c (resp, ready) w) as [w1|w1] eqn:Hmsg; [by apply IH|].
  exfalso. apply Exists_exists in Hev as (r & Hr & Hk).
  assert (Hp : Forall (fun r => rr_key r = None) (Answer resp))
    by (apply (on_message_panics_iff c resp ready w); eauto).
  rewrite Forall_forall in Hp. by apply Hk, Hp.
Qed.

(** C4, what the code does: when the first [sendQuery] fails, [query]
    stops there and returns nil, not the error. *)
Theorem query_swallows_initial_send_error `{E : Collaborators}
    (c : client) (service : string) (timeout : Z)
    (evs : list (Msg * bool)) (w : World) (e : error) :
  (sendQuery c (SetQuestion service TypeANY) w).1 = Some e ->
  query c service timeout evs w =
  Returned None (sendQuery c (SetQuestion service TypeANY) w).2.
Proof.
  unfold query.
  destruct (sendQuery c (SetQuestion service TypeANY) w) as [[e0|] w1];
    simpl; [done | discriminate].
Qed.

(** The two branches of the completion check that agree with C5. *)
Lemma incomplete_entry_is_queried `{E : Collaborators} c resp ready w p s :
  (range_answers (Answer resp) (inprogress w) None).2 = Some p ->
  (range_answers (Answer resp) (inprogress w) None).1 !! p = Some s ->
  complete s = false ->
  exists w', on_message c (resp, ready) w = inl w' /\
    asked w' = asked w ++ [SetQuestion (Name s) TypeANY] /\
    entries w' = entries w /\ dropped w' = dropped w.
Proof.
  intros Hp Hs Hc. pose proof (on_message_cases c resp ready w) as H.
  rewrite Hp in H. destruct H as (s' & Hs' & H). simplify_eq.
  rewrite Hc in H. simpl in H. destruct H as (w' & ? & ? & ? & ? & ?).
  by exists w'.
Qed.

Lemma complete_unsent_entry_is_offered `{E : Collaborators} c resp ready w p s :
  (range_answers (Answer resp) (inprogress w) None).2 = Some p ->
  (range_answers (Answer resp) (inprogress w) None).1 !! p = Some s ->
  complete s = true -> sent s = false ->
  exists w', on_message c (resp, ready) w = inl w' /\
    asked w' = asked w /\
    entries w' ++ dropped w' ≡ₚ p :: entries w ++ dropped w.
Proof.
  intros Hp Hs Hc Hsent. pose proof (on_message_cases c resp ready w) as H.
  rewrite Hp in H. destruct H as (s' & Hs' & H). simplify_eq.
  rewrite Hc, Hsent in H. simpl in H. eexists. split; [exact H|].
  destruct ready; simpl; (split; [done|]).
  - rewrite <- app_assoc. simpl. by rewrite <- Permutation_middle.
  - by rewrite app_assoc, <- Permutation_cons_append.
Qed.

(** C5, what the code does: when the entry touched last is complete and
    has already been sent, the [else] branch runs and a follow-up query
    for its name is sent once more. *)
Theorem complete_sent_entry_is_queried_again `{E : Collaborators}
    (c : client) (resp : Msg) (ready : bool) (w : World)
    (p : ptr) (s : ServiceEntry) :
  (range_answers (Answer resp) (inprogress w) None).2 = Some p ->
  (range_answers (Answer resp) (inprogress w) None).1 !! p = Some s ->
  complete s = true -> sent s = true ->
  exists w', on_message c (resp, ready) w = inl w' /\
    asked w' = asked w ++ [SetQuestion (Name s) TypeANY] /\
    entries w' = entries w /\ dropped w' = dropped w.
Proof.
  intros Hp Hs Hc Hsent. pose proof (on_message_cases c resp ready w) as H.
  rewrite Hp in H. destruct H as (s' & Hs' & H). simplify_eq.
  rewrite Hc, Hsent in H. simpl in H. destruct H as (w' & ? & ? & ? & ? & ?).
  by exists w'.
Qed.

(** C9, what the code does: a message none of whose answers is a [PTR],
    [SRV], [TXT], [A] or [AAAA] record leaves [inp] nil, and the call of
    [complete()] on it panics. *)
Theorem message_without_matching_answer_panics `{E : Collaborators}
    (c : client) (resp : Msg) (ready : bool) (w : World) :
  Forall (fun r => rr_key r = None) (Answer resp) ->
  (range_answers (Answer resp) (inprogress w) None).2 = None /\
  exists w', on_message c (resp, ready) w = inr w'.
Proof.
  intros H. split.
  - by apply range_answers_nil_ptr.
  - by apply on_message_panics_iff.
Qed.

Lemma newClient_open r4 r6 w :
  r4.1 <> None \/ r6.1 <> None ->
  exists c w1, newClient r4 r6 w = (Some c, None, w1).
Proof.
  unfold newClient.
  destruct r4 as [[u4|] e4], r6 as [[u6|] e6]; simpl; intros Hopen; eauto.
  by destruct Hopen.
Qed.

Lemma query_after_send `{E : Collaborators} c service timeout evs w :
  (Pack (SetQuestion service TypeANY)).2 = None ->
  query c service timeout evs w =
  query_loop c evs
    (set_inprogress ∅ (sendQuery c (SetQuestion service TypeANY) w).2).
Proof.
  intros Hpack. unfold query.
  pose proof (sendQuery_err c (SetQuestion service TypeANY) w) as He.
  destruct (sendQuery c (SetQuestion service TypeANY) w) as [e1 w1].
  simpl in *. rewrite Hpack in He. by subst e1.
Qed.

(** X17: The error of [LookupDomain] can only be the one of [newClient]. *)
Lemma LookupDomain_error_from_newClient `{E : Collaborators}
    r4 r6 service domain timeout evs w e w' :
  LookupDomain r4 r6 service domain timeout evs w = Returned (Some e) w' ->
  r4.1 = None /\ r6.1 = None /\ (newClient r4 r6 w).1.2 = Some e.
Proof.
  unfold LookupDomain.
  destruct (newClient r4 r6 w) as [[[c|] err] w1] eqn:N.
  - destruct (query c _ timeout evs w1) as [e1 w2|w2] eqn:Q; [|discriminate].
    apply query_returns_nil in Q. congruence.
  - intros [= -> <-]. revert N. unfold newClient.
    destruct r4 as [[u4|] e4], r6 as [[u6|] e6]; simpl; by intros [= <-].
Qed.

(** X16: With a socket open and the first question packed, [LookupDomain]
    runs to the timeout and returns nil whenever every received message
    holds a matched answer, whether or not the follow-up questions can be
    sent. *)
Lemma LookupDomain_returns_nil `{E : Collaborators} r4 r6 service domain timeout evs w :
  r4.1 <> None \/ r6.1 <> None ->
  (Pack (SetQuestion (trimDot service +:+ "." +:+ trimDot domain +:+ ".") TypeANY)).2 = None ->
  Forall (fun ev => Exists (fun r => rr_key r <> None) (Answer ev.1)) evs ->
  exists w', LookupDomain r4 r6 service domain timeout evs w = Returned None w'.
Proof.
  intros Hopen Hpack Hall. unfold LookupDomain.
  destruct (newClient_open r4 r6 w Hopen) as (c & w1 & ->).
  rewrite query_after_send by done.
  destruct (query_loop_returns c evs
              (set_inprogress ∅
                 (sendQuery c
                    (SetQuestion (trimDot service +:+ "." +:+ trimDot domain +:+ ".")
                       TypeANY) w1).2) Hall) as [w2 ->].
  eauto.
Qed.

(** [Lookup] is [LookupDomain] in the domain "local" with one second. *)
Lemma Lookup_LookupDomain `{E : Collaborators} r4 r6 service evs w :
  Lookup r4 r6 service evs w = LookupDomain r4 r6 service "local" Second evs w.
Proof. reflexivity. Qed.

(** C8, what the code does: with the client open and the first question
    sent, a received message without a matching answer makes
    [LookupDomain] panic instead of returning nil. *)
Theorem LookupDomain_panics_on_unmatched_message `{E : Collaborators}
    (r4 r6 : option UDPConn * option error) (service domain : string)
    (timeout : Z) (resp : Msg) (ready : bool)
    (evs : list (Msg * bool)) (w : World) :
  r4.1 <> None \/ r6.1 <> None ->
  (Pack (SetQuestion (trimDot service +:+ "." +:+ trimDot domain +:+ ".") TypeANY)).2 = None ->
  Forall (fun r => rr_key r = None) (Answer resp) ->
  exists w',
    LookupDomain r4 r6 service domain timeout ((resp, ready) :: evs) w = Panicked w'.
Proof.
  intros Hopen Hpack Hnone. unfold LookupDomain.
  destruct (newClient_open r4 r6 w Hopen) as (c & w1 & ->).
  rewrite query_after_send, query_loop_cons by done.
  destruct (proj2 (on_message_panics_iff c resp ready
              (set_inprogress ∅
                 (sendQuery c
                    (SetQuestion (trimDot service +:+ "." +:+ trimDot domain +:+ ".")
                       TypeANY) w1).2)) Hnone) as [w2 ->].
  eauto.
Qed.

(** ** The properties at concrete collaborators *)

Lemma query_swallows_initial_send_error_witness :
  query (E := refusing_codec) both_open
    "_foobar._tcp.local." 50000000 [] world0 =
  Returned None
    (sendQuery (E := refusing_codec) both_open
       (SetQuestion "_foobar._tcp.local." TypeANY) world0).2.
Proof.
  apply (query_swallows_initial_send_error (E := refusing_codec)
           both_open "_foobar._tcp.local." 50000000 [] world0
           "dns: domain must be fully qualified").
  reflexivity.
Defined.

Lemma complete_sent_entry_is_queried_again_witness :
  exists w',
    on_message (E := unreachable_net) both_open
      (mkMsg [] [RR_TXT "n" ["x"]], true)
      (set_inprogress {["n" := mkServiceEntry "n" localhost 80 "x" true true]} world0)
    = inl w' /\
    asked w' = [] ++ [SetQuestion "n" TypeANY] /\
    entries w' = [] /\ dropped w' = [].
Proof.
  apply (complete_sent_entry_is_queried_again (E := unreachable_net)
           both_open (mkMsg [] [RR_TXT "n" ["x"]]) true
           (set_inprogress {["n" := mkServiceEntry "n" localhost 80 "x" true true]} world0)
           "n" (mkServiceEntry "n" localhost 80 "x" true true)).
  - vm_compute. reflexivity.
  - vm_compute. reflexivity.
  - reflexivity.
  - reflexivity.
Defined.

Lemma message_without_matching_answer_panics_witness :
  (range_answers (Answer (mkMsg [("_foobar._tcp.local.", TypeANY)] []))
     (inprogress world0) None).2 = None /\
  exists w',
    on_message (E := unreachable_net) both_open
      (mkMsg [("_foobar._tcp.local.", TypeANY)] [], true) world0 = inr w'.
Proof.
  apply (message_without_matching_answer_panics (E := unreachable_net)
           both_open
           (mkMsg [("_foobar._tcp.local.", TypeANY)] []) true world0).
  simpl. constructor.
Defined.

Lemma LookupDomain_panics_on_unmatched_message_witness :
  exists w',
    LookupDomain (E := unreachable_net)
      (Some 3%Z, None) (None, Some "listen udp6: address family not supported")
      "_foobar._tcp" "local" 50000000
      [(mkMsg [("_foobar._tcp.local.", TypeANY)] [], true)] world0 = Panicked w'.
Proof.
  apply (LookupDomain_panics_on_unmatched_message (E := unreachable_net)
           (Some 3%Z, None) (None, Some "listen udp6: address family not supported")
           "_foobar._tcp" "local" 50000000
           (mkMsg [("_foobar._tcp.local.", TypeANY)] []) true [] world0).
  - left. discriminate.
  - reflexivity.
  - simpl. constructor.
Defined.

(** Both socket writes fail and [sendQuery] still returns nil. *)
Example sendQuery_ignores_write_errors :
  sendQuery (E := unreachable_net) both_open
    (SetQuestion "_foobar._tcp.local." TypeANY) world0 =
  (None,
   note_write (4%Z, [], group6, Some "sendto: network is unreachable")
     (note_write (3%Z, [], group4, Some "sendto: network is unreachable")
        (note_query (SetQuestion "_foobar._tcp.local." TypeANY) world0))).
Proof. reflexivity. Qed.

(** The scenario of [TestServer_Lookup]: a [PTR] answer for the service,
    then the [SRV], [TXT] and [A] answers of the instance; the entry is
    delivered once, and a second copy of the answers only triggers one
    more question. *)
Example lookup_scenario :
  let n := "hostname._foobar._tcp.local." in
  let browse := mkMsg [] [RR_PTR "_foobar._tcp.local." n] in
  let detail :=
    mkMsg [] [RR_SRV n 80 n; RR_TXT n ["Local web server"]; RR_A n localhost] in
  let o := LookupDomain (E := unreachable_net)
             (Some 3%Z, None) (Some 4%Z, None) "_foobar._tcp" "local" 50000000
             [(browse, true); (detail, true); (detail, true)] world0 in
  exists w, o = Returned None w /\
    entries w = [n] /\ dropped w = [] /\
    inprogress w !! n =
      Some (mkServiceEntry n localhost 80 "Local web server" true true) /\
    asked w = [SetQuestion "_foobar._tcp.local." TypeANY;
               SetQuestion n TypeANY; SetQuestion n TypeANY].
Proof. eexists. split; [vm_compute; reflexivity|]. repeat split. Qed.

(** ** Further properties of the map operations *)

(** X1: [ensureName] returns a pointer to an entry of the map under the name
    asked for, leaves every entry that was there as it was, and a second
    call changes nothing more. *)
Theorem ensureName_keeps_and_finds
    (m : gmap string ServiceEntry) (name : string) :
  (ensureName m name).2 = name /\
  is_Some ((ensureName m name).1 !! name) /\
  (forall k s, m !! k = Some s -> (ensureName m name).1 !! k = Some s) /\
  (forall k, k <> name -> (ensureName m name).1 !! k = m !! k) /\
  ensureName (ensureName m name).1 name = ensureName m name.
Proof.
  split; [apply ensureName_ptr|].
  split; [rewrite ensureName_lookup; case_decide; [eauto | done]|].
  split; [|split].
  - intros k s Hk. rewrite ensureName_lookup. case_decide; [|done].
    subst k. by rewrite Hk.
  - intros k Hk. rewrite ensureName_lookup. by case_decide.
  - unfold ensureName. destruct (m !! name) as [s|] eqn:Hm.
    + simpl. by rewrite Hm.
    + simpl. by rewrite lookup_insert_eq.
Qed.

(** X2: An entry made by [ensureName] for a name that was absent is the zero
    entry of that name: incomplete and not yet sent. *)
Theorem ensureName_fresh_incomplete
    (m : gmap string ServiceEntry) (name : string) :
  m !! name = None ->
  (ensureName m name).1 !! name = Some (newServiceEntry name) /\
  entry_complete name (ensureName m name).1 = false.
Proof.
  intros Hm. assert (H : (ensureName m name).1 !! name = Some (newServiceEntry name)).
  { rewrite ensureName_lookup. case_decide; [|done]. by rewrite Hm. }
  split; [done|]. unfold entry_complete. by rewrite H.
Qed.

Lemma ensureName_fresh_incomplete_witness :
  (ensureName ∅ "n").1 !! "n" = Some (newServiceEntry "n") /\
  entry_complete "n" (ensureName ∅ "n").1 = false.
Proof. apply (ensureName_fresh_incomplete ∅ "n"). reflexivity. Defined.

Lemma touches_false n r : touches n r = false <-> rr_key r <> Some n.
Proof. unfold touches. by rewrite bool_decide_eq_false. Qed.

(** X3: Answers filed under other names do not change the entry of a name,
    nor do they create one. *)
Theorem answers_for_other_names_leave_entry
    (l : list RR) (n : string) (m : gmap string ServiceEntry)
    (inp : option ptr) :
  Forall (fun r => touches n r = false) l ->
  (range_answers l m inp).1 !! n = m !! n.
Proof.
  revert m inp. induction l as [|r l IH]; intros m inp Hl; [done|].
  apply Forall_cons in Hl as [Hr Hl].
  rewrite range_answers_cons, IH, answer_step_lookup by done.
  by rewrite Hr.
Qed.

Lemma answers_for_other_names_leave_entry_witness :
  (range_answers [RR_SRV "a" 80 "a"; RR_other "n"; RR_TXT "b" ["x"]]
     {["n" := mkServiceEntry "n" localhost 80 "x" true false]} None).1 !! "n" =
  ({["n" := mkServiceEntry "n" localhost 80 "x" true false]}
     : gmap string ServiceEntry) !! "n".
Proof.
  apply (answers_for_other_names_leave_entry
           [RR_SRV "a" 80 "a"; RR_other "n"; RR_TXT "b" ["x"]] "n").
  repeat constructor.
Defined.

(** X4: Records of any other type than [PTR], [SRV], [TXT], [A] and [AAAA]
    are skipped: the map and [inp] stay as they are. *)
Theorem unmatched_answers_are_skipped
    (l : list RR) (m : gmap string ServiceEntry) (inp : option ptr) :
  Forall (fun r => rr_key r = None) l ->
  range_answers l m inp = (m, inp).
Proof.
  revert m inp. induction l as [|r l IH]; intros m inp Hl; [done|].
  apply Forall_cons in Hl as [Hr Hl].
  rewrite range_answers_cons. destruct r; try discriminate Hr.
  simpl. by apply IH.
Qed.

Lemma unmatched_answers_are_skipped_witness :
  range_answers [RR_other "a"; RR_other "b"]
    {["n" := newServiceEntry "n"]} (Some "n") =
  ({["n" := newServiceEntry "n"]}, Some "n").
Proof.
  apply (unmatched_answers_are_skipped [RR_other "a"; RR_other "b"]).
  repeat constructor.
Defined.

Lemma rr_update_holds r s : holds_value_of r (rr_update r s).
Proof. by destruct r. Qed.

Lemma rr_update_keeps_value r r' s :
  same_field r r' = false ->
  holds_value_of r s -> holds_value_of r (rr_update r' s).
Proof. by destruct r, r'. Qed.

Lemma range_answers_keeps_value r n : forall l m inp s,
  m !! n = Some s -> holds_value_of r s ->
  Forall (fun r' => touches n r' && same_field r r' = false) l ->
  exists s', (range_answers l m inp).1 !! n = Some s' /\ holds_value_of r s'.
Proof.
  induction l as [|r' l IH]; intros m inp s Hs Hv Hl.
  - exists s. by simpl.
  - apply Forall_cons in Hl as [Hr Hl]. rewrite range_answers_cons.
    pose proof (answer_step_lookup m inp r' n) as Hstep.
    rewrite Hs in Hstep. simpl in Hstep.
    destruct (touches n r'); simpl in Hr.
    + apply (IH _ _ _ Hstep); [|done]. by apply rr_update_keeps_value.
    + by apply (IH _ _ _ Hstep).
Qed.

(** X5: The last writer wins: after an answer filed under a name, the entry
    of that name holds the value of that answer for as long as no later
    answer for the name assigns the same field. *)
Theorem last_answer_for_a_field_wins
    (l1 l2 : list RR) (r : RR) (n : string)
    (m : gmap string ServiceEntry) (inp : option ptr) :
  touches n r = true ->
  Forall (fun r' => touches n r' && same_field r r' = false) l2 ->
  exists s, (range_answers (l1 ++ r :: l2) m inp).1 !! n = Some s /\
            holds_value_of r s.
Proof.
  intros Hr Hl2. rewrite range_answers_app, range_answers_cons.
  set (m1 := (range_answers l1 m inp).1). set (i1 := (range_answers l1 m inp).2).
  pose proof (answer_step_lookup m1 i1 r n) as Hstep. rewrite Hr in Hstep.
  apply (range_answers_keeps_value r n l2 _ _ _ Hstep); [|done].
  apply rr_update_holds.
Qed.

Lemma last_answer_for_a_field_wins_witness :
  exists s,
    (range_answers
       ([RR_SRV "n" 80 "n"] ++ RR_SRV "n" 8080 "n" ::
        [RR_TXT "n" ["x"]; RR_SRV "m" 1 "m"]) ∅ None).1 !! "n" = Some s /\
    Port s = 8080%Z.
Proof.
  apply (last_answer_for_a_field_wins [RR_SRV "n" 80 "n"]
           [RR_TXT "n" ["x"]; RR_SRV "m" 1 "m"] (RR_SRV "n" 8080 "n") "n" ∅ None).
  - reflexivity.
  - repeat constructor.
Defined.

(** X6: The names in the map after the answers are the names that were there
    and the keys of the matched answers: entries are created for these
    and for nothing else, and none is ever removed. *)
Theorem range_answers_domain
    (l : list RR) (m : gmap string ServiceEntry) (inp : option ptr) :
  dom (range_answers l m inp).1 = dom m ∪ list_to_set (omap rr_key l).
Proof.
  revert m inp. induction l as [|r l IH]; intros m inp.
  - simpl. set_solver.
  - rewrite range_answers_cons, IH.
    assert (Hstep : dom (answer_step (m, inp) r).1 =
                    dom m ∪ list_to_set (option_list (rr_key r))).
    { apply set_eq. intros n.
      rewrite elem_of_union, !elem_of_dom, answer_step_lookup.
      unfold touches. case_bool_decide as Hk.
      - rewrite Hk. simpl. split; [intros _; right; set_solver | eauto].
      - split; [by left|]. intros [?|Hn]; [done|]. exfalso. apply Hk.
        destruct (rr_key r); simpl in Hn; set_solver. }
    rewrite Hstep. simpl. destruct (rr_key r); simpl; set_solver.
Qed.

(** [inp] after the answers of a message is the key of the last answer
    that the switch matched. *)
Lemma range_answers_last_key l : forall m inp,
  (range_answers l m inp).2 =
  match last_key l with Some k => Some k | None => inp end.
Proof.
  unfold last_key. induction l as [|r l IH]; intros m inp; [done|].
  rewrite range_answers_cons, IH, answer_step_ptr. simpl.
  destruct (rr_key r) as [k|]; [|done].
  rewrite last_cons. change (list_omap _ _ rr_key l) with (omap rr_key l).
  by destruct (last (omap rr_key l)).
Qed.

Lemma ensureName_names_ok m name :
  names_ok m -> names_ok (ensureName m name).1.
Proof.
  intros Hm k s. rewrite ensureName_lookup. case_decide; [|apply Hm].
  subst k. destruct (m !! name) as [s0|] eqn:H0; simpl; intros [= <-]; [|done].
  by apply Hm.
Qed.

Lemma answer_step_names_ok m inp r :
  names_ok m -> names_ok (answer_step (m, inp) r).1.
Proof.
  intros Hm k s. rewrite answer_step_lookup.
  destruct (touches k r); [|apply Hm]. intros [= <-].
  destruct (rr_update_keeps r (default (newServiceEntry k) (m !! k))) as [-> _].
  destruct (m !! k) as [s0|] eqn:H0; simpl; [by apply Hm | done].
Qed.

Lemma range_answers_names_ok l : forall m inp,
  names_ok m -> names_ok (range_answers l m inp).1.
Proof.
  induction l as [|r l IH]; intros m inp Hm; [done|].
  rewrite range_answers_cons. by apply IH, answer_step_names_ok.
Qed.

(** ** Further properties of one received message *)

Lemma write_if_open_rest `{E : Collaborators} l buf a w :
  logged (write_if_open l buf a w) = logged w /\
  closed_conns (write_if_open l buf a w) = closed_conns w /\
  wire (write_if_open l buf a w) =
  wire w ++ match l with
            | Some u => [(u, buf, a, WriteTo u buf a)]
            | None => []
            end.
Proof. destruct l; simpl; by rewrite ?app_nil_r. Qed.

(** What [sendQuery] writes, and what it leaves alone. *)
Lemma sendQuery_wire `{E : Collaborators} c q w :
  wire (sendQuery c q w).2 = wire w ++ transmissions c q /\
  logged (sendQuery c q w).2 = logged w /\
  closed_conns (sendQuery c q w).2 = closed_conns w.
Proof.
  unfold sendQuery, transmissions. destruct (Pack q) as [buf [e|]]; simpl.
  - by rewrite app_nil_r.
  - repeat match goal with |- context [write_if_open ?l ?b ?a ?w] =>
      destruct (write_if_open_rest l b a w) as (-> & -> & ->)
    end. simpl. by rewrite app_assoc.
Qed.

(** The world after the [else] branch of the completion check. *)
Lemma follow_up_effects `{E : Collaborators} c name w :
  let r := sendQuery c (SetQuestion name TypeANY) w in
  let w' := match r.1 with
            | Some e => Printf (LogQueryFailed name e) r.2
            | None => r.2
            end in
  inprogress w' = inprogress w /\ entries w' = entries w /\
  dropped w' = dropped w /\
  asked w' = asked w ++ [SetQuestion name TypeANY] /\
  wire w' = wire w ++ transmissions c (SetQuestion name TypeANY) /\
  closed_conns w' = closed_conns w /\
  logged w' = logged w ++
              match (Pack (SetQuestion name TypeANY)).2 with
              | Some e => [LogQueryFailed name e]
              | None => []
              end.
Proof.
  intros r w'. subst r w'.
  pose proof (sendQuery_frame c (SetQuestion name TypeANY) w) as (F1 & F2 & F3 & F4).
  pose proof (sendQuery_wire c (SetQuestion name TypeANY) w) as (G1 & G2 & G3).
  pose proof (sendQuery_err c (SetQuestion name TypeANY) w) as He.
  rewrite <- He.
  destruct (sendQuery c (SetQuestion name TypeANY) w) as [[e|] w1];
    simpl in *; rewrite ?app_nil_r; by repeat split; try congruence.
Qed.

(** The body of the [case], by the key of the last matched answer. *)
Lemma on_message_effects `{E : Collaborators} c resp ready w :
  match last_key (Answer resp) with
  | None =>
      on_message c (resp, ready) w =
      inr (set_inprogress (range_answers (Answer resp) (inprogress w) None).1 w)
  | Some k =>
      exists s,
        (range_answers (Answer resp) (inprogress w) None).1 !! k = Some s /\
        on_message c (resp, ready) w =
        inl (if complete s && negb (sent s) then
               (if ready then deliver k else drop k)
                 (set_inprogress
                    (<[k := set_sent true s]>
                       (range_answers (Answer resp) (inprogress w) None).1) w)
             else
               match (sendQuery c (SetQuestion (Name s) TypeANY)
                        (set_inprogress
                           (range_answers (Answer resp) (inprogress w) None).1 w)).1
               with
               | Some e =>
                   Printf (LogQueryFailed (Name s) e)
                     (sendQuery c (SetQuestion (Name s) TypeANY)
                        (set_inprogress
                           (range_answers (Answer resp) (inprogress w) None).1 w)).2
               | None =>
                   (sendQuery c (SetQuestion (Name s) TypeANY)
                      (set_inprogress
                         (range_answers (Answer resp) (inprogress w) None).1 w)).2
               end)
  end.
Proof.
  pose proof (range_answers_last_key (Answer resp) (inprogress w) None) as Hk.
  pose proof (range_answers_ptr_valid (Answer resp) (inprogress w) None) as Hvalid.
  unfold on_message.
  destruct (range_answers (Answer resp) (inprogress w) None) as [m inp].
  simpl in *. destruct (last_key (Answer resp)) as [k|]; subst inp; [|done].
  destruct (Hvalid k eq_refl) as [s Hs]; [by intros q Hq|].
  exists s. split; [done|]. rewrite Hs.
  destruct (complete s && negb (sent s)).
  - by destruct ready.
  - by destruct (sendQuery c (SetQuestion (Name s) TypeANY) (set_inprogress m w))
      as [[e|] w1].
Qed.

(** X7: Each message that is handled gets exactly one reaction, decided on the
    entry of the last matched answer alone: that entry is offered to
    [entries] when it is complete and not yet sent, and marked sent;
    otherwise one question for its name is asked.  Nothing else is offered
    or asked, whatever other entries the message has completed. *)
Theorem message_gets_one_reaction `{E : Collaborators}
    (c : client) (resp : Msg) (ready : bool) (w w' : World) :
  names_ok (inprogress w) ->
  on_message c (resp, ready) w = inl w' ->
  exists k s,
    last_key (Answer resp) = Some k /\
    (range_answers (Answer resp) (inprogress w) None).1 !! k = Some s /\
    ((complete s = true /\ sent s = false /\
      inprogress w' !! k = Some (set_sent true s) /\
      entries w' = entries w ++ (if ready then [k] else []) /\
      dropped w' = dropped w ++ (if ready then [] else [k]) /\
      asked w' = asked w /\ wire w' = wire w) \/
     (complete s && negb (sent s) = false /\
      inprogress w' = (range_answers (Answer resp) (inprogress w) None).1 /\
      entries w' = entries w /\ dropped w' = dropped w /\
      asked w' = asked w ++ [SetQuestion k TypeANY])).
Proof.
  intros Hnames Hstep. pose proof (on_message_effects c resp ready w) as H.
  destruct (last_key (Answer resp)) as [k|]; [|congruence].
  destruct H as (s & Hs & H). rewrite Hstep in H. injection H as ->.
  exists k, s. split; [done|]. split; [done|].
  destruct (complete s && negb (sent s)) eqn:Hc.
  - left. apply andb_true_iff in Hc as [Hc Hsent].
    apply negb_true_iff in Hsent.
    destruct ready; simpl; rewrite lookup_insert_eq, ?app_nil_r; by repeat split.
  - right. split; [done|].
    assert (Hname : Name s = k).
    { apply (range_answers_names_ok (Answer resp) (inprogress w) None Hnames _ _ Hs). }
    subst k.
    pose proof (follow_up_effects c (Name s)
                  (set_inprogress
                     (range_answers (Answer resp) (inprogress w) None).1 w))
      as (F1 & F2 & F3 & F4 & _).
    simpl in *. by repeat split.
Qed.

Lemma message_gets_one_reaction_witness :
  exists k s,
    last_key (Answer detail_msg) = Some k /\
    (range_answers (Answer detail_msg) (inprogress world0) None).1 !! k = Some s /\
    ((complete s = true /\ sent s = false /\
      inprogress after_detail !! k = Some (set_sent true s) /\
      entries after_detail = entries world0 ++ (if true then [k] else []) /\
      dropped after_detail = dropped world0 ++ (if true then [] else [k]) /\
      asked after_detail = asked world0 /\ wire after_detail = wire world0) \/
     (complete s && negb (sent s) = false /\
      inprogress after_detail =
      (range_answers (Answer detail_msg) (inprogress world0) None).1 /\
      entries after_detail = entries world0 /\
      dropped after_detail = dropped world0 /\
      asked after_detail = asked world0 ++ [SetQuestion k TypeANY])).
Proof.
  apply (message_gets_one_reaction (E := unreachable_net) both_open
           detail_msg true world0 after_detail).
  - intros k s Hk. simpl in Hk. by rewrite lookup_empty in Hk.
  - vm_compute. reflexivity.
Defined.

(** X8: A follow-up question that cannot be sent is logged and nothing else
    happens: the message is handled, nothing is written and nothing is
    offered. *)
Theorem failed_follow_up_is_logged_only `{E : Collaborators}
    (c : client) (resp : Msg) (ready : bool) (w : World)
    (k : string) (s : ServiceEntry) (e : error) :
  last_key (Answer resp) = Some k ->
  (range_answers (Answer resp) (inprogress w) None).1 !! k = Some s ->
  complete s && negb (sent s) = false ->
  (Pack (SetQuestion (Name s) TypeANY)).2 = Some e ->
  exists w', on_message c (resp, ready) w = inl w' /\
    logged w' = logged w ++ [LogQueryFailed (Name s) e] /\
    wire w' = wire w /\ entries w' = entries w /\ dropped w' = dropped w.
Proof.
  intros Hk Hs Hc Hpack. pose proof (on_message_effects c resp ready w) as H.
  rewrite Hk in H. destruct H as (s' & Hs' & H). simplify_eq.
  rewrite Hc in H. eexists. split; [exact H|].
  pose proof (follow_up_effects c (Name s)
                (set_inprogress
                   (range_answers (Answer resp) (inprogress w) None).1 w))
    as (_ & F2 & F3 & _ & F5 & _ & F7).
  simpl in *. rewrite Hpack in F7. unfold transmissions in F5.
  rewrite Hpack, app_nil_r in F5. by repeat split.
Qed.

Lemma failed_follow_up_is_logged_only_witness :
  exists w',
    on_message (E := refusing_codec) both_open
      (mkMsg [] [RR_PTR "_foobar._tcp.local." "n"], true) world0 = inl w' /\
    logged w' = [] ++ [LogQueryFailed "n" "dns: domain must be fully qualified"] /\
    wire w' = [] /\ entries w' = [] /\ dropped w' = [].
Proof.
  apply (failed_follow_up_is_logged_only (E := refusing_codec) both_open
           (mkMsg [] [RR_PTR "_foobar._tcp.local." "n"]) true world0
           "n" (newServiceEntry "n") "dns: domain must be fully qualified").
  - reflexivity.
  - vm_compute. reflexivity.
  - reflexivity.
  - reflexivity.
Defined.

(** ** Further properties of the loop and of the lookup *)

Lemma last_key_seen l k :
  last_key l = Some k -> exists r, r ∈ l /\ rr_key r = Some k.
Proof.
  unfold last_key. intros H. apply last_Some_elem_of in H.
  apply list_elem_of_omap in H as (r & Hr & Hk). eauto.
Qed.

(** What the handling of one message adds to the questions asked and to
    the wire, whether it ends well or in a panic. *)
Lemma on_message_asked_wire `{E : Collaborators} c ev w :
  closed_conns (after c ev w) = closed_conns w /\
  exists qs, asked (after c ev w) = asked w ++ qs /\
             wire (after c ev w) = wire w ++ flat_map (transmissions c) qs.
Proof.
  unfold after. destruct ev as [resp ready].
  pose proof (on_message_effects c resp ready w) as H.
  destruct (last_key (Answer resp)) as [k|].
  - destruct H as (s & _ & ->). destruct (complete s && negb (sent s)).
    + split; [by destruct ready|]. exists []. simpl. rewrite !app_nil_r.
      by destruct ready.
    + pose proof (follow_up_effects c (Name s)
                    (set_inprogress
                       (range_answers (Answer resp) (inprogress w) None).1 w))
        as (_ & _ & _ & F4 & F5 & F6 & _).
      simpl in *. split; [done|]. exists [SetQuestion (Name s) TypeANY].
      simpl. by rewrite app_nil_r.
  - rewrite H. split; [done|]. exists []. simpl. by rewrite !app_nil_r.
Qed.

(** A message that is handled adds one to the number of questions asked
    plus entries offered. *)
Lemma on_message_counts `{E : Collaborators} c ev w w' :
  on_message c ev w = inl w' ->
  length (asked w') + length (entries w') + length (dropped w') =
  length (asked w) + length (entries w) + length (dropped w) + 1.
Proof.
  destruct ev as [resp ready]. intros Hstep.
  pose proof (on_message_effects c resp ready w) as H.
  destruct (last_key (Answer resp)) as [k|]; [|congruence].
  destruct H as (s & _ & H). rewrite Hstep in H. injection H as ->.
  destruct (complete s && negb (sent s)).
  - destruct ready; simpl; rewrite length_app; simpl; lia.
  - pose proof (follow_up_effects c (Name s)
                  (set_inprogress
                     (range_answers (Answer resp) (inprogress w) None).1 w))
      as (_ & F2 & F3 & F4 & _).
    simpl in *. rewrite F2, F3, F4, length_app. simpl. lia.
Qed.

Lemma names_ok_mark_sent m k s :
  names_ok m -> m !! k = Some s -> names_ok (<[k := set_sent true s]> m).
Proof.
  intros Hm Hs k' s'. rewrite lookup_insert. case_decide; [|apply Hm].
  subst k'. intros [= <-]. simpl. by apply Hm.
Qed.

(** What the handling of one message asks and offers is about the key of
    its last matched answer, and the names in the map stay right. *)
Lemma on_message_seen `{E : Collaborators} c resp ready w :
  names_ok (inprogress w) ->
  names_ok (inprogress (after c (resp, ready) w)) /\
  exists qs ne nd,
    asked (after c (resp, ready) w) = asked w ++ qs /\
    entries (after c (resp, ready) w) = entries w ++ ne /\
    dropped (after c (resp, ready) w) = dropped w ++ nd /\
    Forall (fun q => exists k, q = SetQuestion k TypeANY /\
                               last_key (Answer resp) = Some k) qs /\
    Forall (fun p => last_key (Answer resp) = Some p) (ne ++ nd).
Proof.
  intros Hnames. unfold after.
  pose proof (on_message_effects c resp ready w) as H.
  pose proof (range_answers_names_ok (Answer resp) (inprogress w) None Hnames)
    as Hm.
  destruct (last_key (Answer resp)) as [k|].
  - destruct H as (s & Hs & ->). destruct (complete s && negb (sent s)).
    + split; [destruct ready; simpl; by apply names_ok_mark_sent|].
      destruct ready.
      * exists [], [k], []. simpl. rewrite !app_nil_r.
        repeat split; by repeat constructor.
      * exists [], [], [k]. simpl. rewrite !app_nil_r.
        repeat split; by repeat constructor.
    + pose proof (follow_up_effects c (Name s)
                    (set_inprogress
                       (range_answers (Answer resp) (inprogress w) None).1 w))
        as (F1 & F2 & F3 & F4 & _).
      simpl in *. split; [by rewrite F1|].
      exists [SetQuestion (Name s) TypeANY], [], [].
      rewrite F2, F3, F4, !app_nil_r. repeat split; [|constructor].
      repeat constructor. exists k. by rewrite (Hm _ _ Hs).
  - rewrite H. simpl. split; [done|]. exists [], [], [].
    rewrite !app_nil_r. by repeat split.
Qed.

(** X10: In a run of the loop that returns, every message has caused exactly
    one question or one offer to [entries]. *)
Theorem query_loop_one_reaction_per_message `{E : Collaborators}
    (c : client) (evs : list (Msg * bool)) (w w' : World) (e : option error) :
  query_loop c evs w = Returned e w' ->
  length (asked w') + length (entries w') + length (dropped w') =
  length (asked w) + length (entries w) + length (dropped w) + length evs.
Proof.
  revert w. induction evs as [|ev evs IH]; intros w.
  - simpl. intros [= _ <-]. lia.
  - rewrite query_loop_cons.
    destruct (on_message c ev w) as [w1|w1] eqn:Hstep; [|discriminate].
    intros Hrest. rewrite (IH _ Hrest), (on_message_counts _ _ _ _ Hstep).
    simpl. lia.
Qed.

Lemma query_loop_one_reaction_per_message_witness :
  length (asked after_detail) + length (entries after_detail) +
  length (dropped after_detail) =
  length (asked world0) + length (entries world0) + length (dropped world0) +
  length [(detail_msg, true)].
Proof.
  apply (query_loop_one_reaction_per_message (E := unreachable_net) both_open
           [(detail_msg, true)] world0 after_detail None).
  vm_compute. reflexivity.
Defined.

Lemma query_loop_asked_wire `{E : Collaborators} c evs : forall w,
  closed_conns (final (query_loop c evs w)) = closed_conns w /\
  exists qs, asked (final (query_loop c evs w)) = asked w ++ qs /\
             wire (final (query_loop c evs w)) =
             wire w ++ flat_map (transmissions c) qs.
Proof.
  induction evs as [|ev evs IH]; intros w.
  - simpl. split; [done|]. exists []. simpl. by rewrite !app_nil_r.
  - rewrite query_loop_cons.
    pose proof (on_message_asked_wire c ev w) as (Hc & qs1 & Ha & Hw).
    unfold after in *. destruct (on_message c ev w) as [w1|w1]; simpl.
    + destruct (IH w1) as (Hc' & qs2 & Ha' & Hw').
      split; [congruence|]. exists (qs1 ++ qs2).
      by rewrite Ha', Hw', Ha, Hw, flat_map_app, !app_assoc.
    + split; [done|]. by exists qs1.
Qed.

(** X11: During one call of [query], what goes on the wire is exactly what
    [sendQuery] transmits for the questions asked, in their order: each
    question that packs is written once on each open socket of the client
    to the group of its family, and nothing else is ever written. *)
Theorem query_writes_only_its_questions `{E : Collaborators}
    (c : client) (service : string) (timeout : Z)
    (evs : list (Msg * bool)) (w : World) :
  exists qs,
    asked (final (query c service timeout evs w)) =
    asked w ++ SetQuestion service TypeANY :: qs /\
    wire (final (query c service timeout evs w)) =
    wire w ++ flat_map (transmissions c) (SetQuestion service TypeANY :: qs).
Proof.
  unfold query.
  pose proof (sendQuery_frame c (SetQuestion service TypeANY) w)
    as (_ & _ & _ & F4).
  pose proof (sendQuery_wire c (SetQuestion service TypeANY) w) as (G1 & _).
  destruct (sendQuery c (SetQuestion service TypeANY) w) as [[e|] w1];
    simpl in *.
  - exists []. simpl. by rewrite app_nil_r.
  - destruct (query_loop_asked_wire c evs (set_inprogress ∅ w1))
      as (_ & qs & Ha & Hw).
    exists qs. simpl in *. by rewrite Ha, Hw, F4, G1, <- !app_assoc.
Qed.

Lemma query_loop_seen `{E : Collaborators} c all evs : forall w,
  (forall ev, ev ∈ evs -> ev ∈ all) ->
  names_ok (inprogress w) ->
  exists qs ne nd,
    asked (final (query_loop c evs w)) = asked w ++ qs /\
    entries (final (query_loop c evs w)) = entries w ++ ne /\
    dropped (final (query_loop c evs w)) = dropped w ++ nd /\
    Forall (fun q => exists k, q = SetQuestion k TypeANY /\ seen_key all k) qs /\
    Forall (seen_key all) (ne ++ nd).
Proof.
  induction evs as [|[resp ready] evs IH]; intros w Hin Hnames.
  - exists [], [], []. simpl. rewrite !app_nil_r. by repeat split.
  - rewrite query_loop_cons.
    pose proof (on_message_seen c resp ready w Hnames)
      as (Hn1 & qs1 & ne1 & nd1 & Ha & He & Hd & Hq & Hp).
    assert (Hseen : forall k, last_key (Answer resp) = Some k -> seen_key all k).
    { intros k Hk. apply last_key_seen in Hk as (r & Hr & Hk).
      exists (resp, ready), r. split; [apply Hin; by left | done]. }
    assert (Hq' : Forall (fun q => exists k, q = SetQuestion k TypeANY /\
                                            seen_key all k) qs1).
    { eapply Forall_impl; [exact Hq|]. intros q (k & -> & Hk). eauto. }
    assert (Hp' : Forall (seen_key all) (ne1 ++ nd1)).
    { eapply Forall_impl; [exact Hp|]. intros p Hk. by apply Hseen. }
    unfold after in *.
    destruct (on_message c (resp, ready) w) as [w1|w1]; simpl.
    + destruct (IH w1) as (qs2 & ne2 & nd2 & Ha' & He' & Hd' & Hq2 & Hp2);
        [intros ev Hev; apply Hin; by right | done |].
      exists (qs1 ++ qs2), (ne1 ++ ne2), (nd1 ++ nd2).
      rewrite Ha', He', Hd', Ha, He, Hd, !app_assoc.
      repeat split; [by apply Forall_app|].
      apply Forall_app in Hp' as [? ?]. apply Forall_app in Hp2 as [? ?].
      by repeat (apply Forall_app; split).
    + by exists qs1, ne1, nd1.
Qed.

(** X12: [query] only reacts to names it was told: after the first question,
    every question asked is for the key of an answer of a received
    message, and so is every entry offered to [entries]. *)
Theorem query_reacts_only_to_answered_names `{E : Collaborators}
    (c : client) (service : string) (timeout : Z)
    (evs : list (Msg * bool)) (w : World) :
  exists qs ne nd,
    asked (final (query c service timeout evs w)) =
    asked w ++ SetQuestion service TypeANY :: qs /\
    entries (final (query c service timeout evs w)) = entries w ++ ne /\
    dropped (final (query c service timeout evs w)) = dropped w ++ nd /\
    Forall (fun q => exists k, q = SetQuestion k TypeANY /\ seen_key evs k) qs /\
    Forall (seen_key evs) (ne ++ nd).
Proof.
  unfold query.
  pose proof (sendQuery_frame c (SetQuestion service TypeANY) w)
    as (_ & F2 & F3 & F4).
  destruct (sendQuery c (SetQuestion service TypeANY) w) as [[e|] w1];
    simpl in *.
  - exists [], [], []. rewrite F2, F3, F4, !app_nil_r. by repeat split.
  - destruct (query_loop_seen c evs evs (set_inprogress ∅ w1))
      as (qs & ne & nd & Ha & He & Hd & Hq & Hp); [done | |].
    { intros k s Hk. simpl in Hk. by rewrite lookup_empty in Hk. }
    exists qs, ne, nd. simpl in *.
    rewrite Ha, He, Hd, F2, F3, F4, <- app_assoc. by repeat split.
Qed.

(** ** Closing the client *)

Lemma Close_closed_conns c w :
  closed_conns (Close c w).2 =
  closed_conns w ++
  (if closed c then []
   else option_list (ipv4List c) ++ option_list (ipv6List c)).
Proof.
  unfold Close. destruct c as [[u4|] [u6|] [|]]; simpl;
    by rewrite ?app_nil_r, <- ?app_assoc.
Qed.

(** X13: [Close] marks the client closed and closes each socket it holds, IPv4
    first; on a client that is closed already it does nothing, so a
    second [Close] changes nothing. *)
Theorem Close_is_idempotent (c : client) (w : World) :
  closed (Close c w).1 = true /\
  Close (Close c w).1 (Close c w).2 = Close c w /\
  closed_conns (Close c w).2 =
  closed_conns w ++
  (if closed c then []
   else option_list (ipv4List c) ++ option_list (ipv6List c)).
Proof.
  unfold Close. destruct c as [[u4|] [u6|] [|]]; simpl;
    rewrite ?app_nil_r, <- ?app_assoc; by repeat split.
Qed.

Lemma query_closed_conns `{E : Collaborators} c service timeout evs w :
  closed_conns (final (query c service timeout evs w)) = closed_conns w.
Proof.
  unfold query.
  pose proof (sendQuery_wire c (SetQuestion service TypeANY) w) as (_ & _ & G3).
  destruct (sendQuery c (SetQuestion service TypeANY) w) as [[e|] w1];
    simpl in *; [done|].
  destruct (query_loop_asked_wire c evs (set_inprogress ∅ w1)) as [-> _].
  done.
Qed.

(** X14: [LookupDomain] closes every connection that [newClient] has opened,
    once each, when [query] returns and also when it panics; when no
    connection could be opened there is nothing to close. *)
Theorem LookupDomain_closes_what_it_opened `{E : Collaborators}
    (r4 r6 : option UDPConn * option error) (service domain : string)
    (timeout : Z) (evs : list (Msg * bool)) (w : World) :
  closed_conns (final (LookupDomain r4 r6 service domain timeout evs w)) =
  closed_conns w ++ option_list r4.1 ++ option_list r6.1.
Proof.
  unfold LookupDomain.
  destruct (newClient r4 r6 w) as [[[c|] err] w1] eqn:Hnew.
  - assert (Hc : ipv4List c = r4.1 /\ ipv6List c = r6.1 /\ closed c = false /\
                 closed_conns w1 = closed_conns w).
    { revert Hnew. unfold newClient.
      destruct r4 as [[u4|] [e4|]], r6 as [[u6|] [e6|]]; simpl;
        intros ?; by simplify_eq. }
    destruct Hc as (H4 & H6 & Hcl & Hw1).
    pose proof (query_closed_conns c
                  (trimDot service +:+ "." +:+ trimDot domain +:+ ".")
                  timeout evs w1) as Hq.
    pose proof (Close_closed_conns c) as Hclose.
    destruct (query c _ timeout evs w1) as [e w2|w2]; simpl in *;
      by rewrite Hclose, Hcl, Hq, Hw1, H4, H6.
  - revert Hnew. unfold newClient.
    destruct r4 as [[u4|] [e4|]], r6 as [[u6|] [e6|]]; simpl;
      intros ?; simplify_eq; by rewrite ?app_nil_r.
Qed.

(** X15: When neither family could be bound, [LookupDomain] returns the error
    of [newClient] at once: the failed binds are logged, no question is
    asked, nothing is written and no received message is handled. *)
Theorem LookupDomain_without_sockets `{E : Collaborators}
    (r4 r6 : option UDPConn * option error) (service domain : string)
    (timeout : Z) (evs : list (Msg * bool)) (w : World) :
  r4.1 = None -> r6.1 = None ->
  exists w',
    LookupDomain r4 r6 service domain timeout evs w =
    Returned (Some "Failed to bind to any udp port!") w' /\
    asked w' = asked w /\ wire w' = wire w /\
    entries w' = entries w /\ dropped w' = dropped w /\
    inprogress w' = inprogress w /\
    logged w' =
    logged w ++
    match r4.2 with Some e => [LogBindFailed "udp4" e] | None => [] end ++
    match r6.2 with Some e => [LogBindFailed "udp6" e] | None => [] end.
Proof.
  unfold LookupDomain, newClient.
  destruct r4 as [u4 [e4|]], r6 as [u6 [e6|]]; simpl; intros -> ->; simpl;
    eexists; (split; [reflexivity|]); simpl;
    rewrite <- ?app_assoc, ?app_nil_r; by repeat split.
Qed.

Lemma LookupDomain_without_sockets_witness :
  exists w',
    LookupDomain (E := unreachable_net)
      (None, Some "listen udp4: permission denied")
      (None, Some "listen udp6: permission denied")
      "_foobar._tcp" "local" 50000000 [(detail_msg, true)] world0 =
    Returned (Some "Failed to bind to any udp port!") w' /\
    asked w' = [] /\ wire w' = [] /\ entries w' = [] /\ dropped w' = [] /\
    inprogress w' = ∅ /\
    logged w' =
    [] ++ [LogBindFailed "udp4" "listen udp4: permission denied"] ++
    [LogBindFailed "udp6" "listen udp6: permission denied"].
Proof.
  apply (LookupDomain_without_sockets (E := unreachable_net)
           (None, Some "listen udp4: permission denied")
           (None, Some "listen udp6: permission denied")
           "_foobar._tcp" "local" 50000000 [(detail_msg, true)] world0);
    reflexivity.
Defined.

Lemma LookupDomain_error_from_newClient_witness :
  (@None UDPConn, Some "listen udp4: permission denied").1 = None /\
  (@None UDPConn, Some "listen udp6: permission denied").1 = None /\
  (newClient (None, Some "listen udp4: permission denied")
     (None, Some "listen udp6: permission denied") world0).1.2 =
  Some "Failed to bind to any udp port!".
Proof.
  apply (LookupDomain_error_from_newClient (E := unreachable_net)
           (None, Some "listen udp4: permission denied")
           (None, Some "listen udp6: permission denied")
           "_foobar._tcp" "local" 50000000 [(detail_msg, true)] world0
           "Failed to bind to any udp port!"
           (Printf (LogBindFailed "udp6" "listen udp6: permission denied")
              (Printf (LogBindFailed "udp4" "listen udp4: permission denied")
                 world0))).
  reflexivity.
Defined.

Lemma LookupDomain_returns_nil_witness :
  exists w',
    LookupDomain (E := refusing_follow_ups) (Some 3%Z, None) only_udp6.2
      "_foobar._tcp" "local" 50000000
      [(mkMsg [] [RR_PTR "_foobar._tcp.local." "n"], true); (detail_msg, false)]
      world0 = Returned None w'.
Proof.
  apply (LookupDomain_returns_nil (E := refusing_follow_ups)
           (Some 3%Z, None) only_udp6.2 "_foobar._tcp" "local" 50000000
           [(mkMsg [] [RR_PTR "_foobar._tcp.local." "n"], true);
            (detail_msg, false)] world0).
  - left. discriminate.
  - reflexivity.
  - constructor; [apply Exists_cons_hd; discriminate|].
    constructor; [apply Exists_cons_hd; discriminate|]. constructor.
Defined.

(** ** The receiving goroutine *)

(** X18: While the client is not seen closed and [msgCh] takes every message,
    [recv] keeps going through read errors and malformed datagrams: it
    has forwarded the decoded messages of the datagrams it could read, in
    the order of arrival, logged the decoding errors of the others, and
    has not returned. *)
Theorem recv_forwards_decoded_in_order
    (Unpack : list byte -> Msg * option error) (u : UDPConn)
    (turns : list Turn) :
  Forall (fun t => closed_seen t = false /\ msg_taken t = true) turns ->
  recv Unpack (Some u) turns =
  {| forwarded := omap (decoded Unpack) turns;
     unpack_failed := omap (undecodable Unpack) turns;
     recv_returned := false |}.
Proof.
  simpl. induction turns as [|t turns IH]; intros Hall; [done|].
  apply Forall_cons in Hall as [[Hopen Htaken] Hall].
  simpl. rewrite Hopen, Htaken, (IH Hall). unfold decoded, undecodable.
  destruct (read_result t) as [data [e|]]; simpl; [done|].
  by destruct (Unpack data) as [msg [e|]].
Qed.

Lemma recv_forwards_decoded_in_order_witness :
  recv unpack_toy (Some 3%Z)
    [mkTurn false ([x00], None) true;
     mkTurn false ([], Some "read: connection refused") true;
     mkTurn false ([x01; x02], None) true;
     mkTurn false ([x00], None) true] =
  {| forwarded :=
       omap (decoded unpack_toy)
         [mkTurn false ([x00], None) true;
          mkTurn false ([], Some "read: connection refused") true;
          mkTurn false ([x01; x02], None) true;
          mkTurn false ([x00], None) true];
     unpack_failed :=
       omap (undecodable unpack_toy)
         [mkTurn false ([x00], None) true;
          mkTurn false ([], Some "read: connection refused") true;
          mkTurn false ([x01; x02], None) true;
          mkTurn false ([x00], None) true];
     recv_returned := false |}.
Proof.
  apply (recv_forwards_decoded_in_order unpack_toy 3%Z).
  repeat constructor.
Defined.

(** X19: Whatever happens, [recv] only puts on [msgCh] messages that decode
    without error from datagrams it has read without error, in their
    order of arrival, and only logs errors of [Unpack]; without a socket
    it returns at once and forwards nothing. *)
Theorem recv_forwards_only_decoded
    (Unpack : list byte -> Msg * option error) (l : option UDPConn)
    (turns : list Turn) :
  forwarded (recv Unpack l turns) `sublist_of` omap (decoded Unpack) turns /\
  unpack_failed (recv Unpack l turns) `sublist_of`
    omap (undecodable Unpack) turns /\
  (l = None -> recv Unpack l turns = recv_stop).
Proof.
  destruct l as [u|]; simpl;
    [|split; [apply sublist_nil_l | split; [apply sublist_nil_l | done]]].
  assert (H : forwarded (recv_loop Unpack turns) `sublist_of`
                omap (decoded Unpack) turns /\
              unpack_failed (recv_loop Unpack turns) `sublist_of`
                omap (undecodable Unpack) turns).
  { induction turns as [|t turns [IH1 IH2]]; simpl; [by split|].
    unfold decoded, undecodable.
    destruct (closed_seen t); simpl;
      [split; apply sublist_nil_l|].
    destruct (read_result t) as [data [e|]]; simpl; [by split|].
    destruct (Unpack data) as [msg [e|]]; simpl.
    - split; [done | by apply sublist_skip].
    - destruct (msg_taken t); simpl.
      + split; [by apply sublist_skip | done].
      + split; apply sublist_nil_l. }
  destruct H. by repeat split.
Qed.

(** X20: Once the loop test of [recv] sees the client closed it returns: what
    arrives afterwards is never read. *)
Theorem recv_returns_when_closed
    (Unpack : list byte -> Msg * option error) (l : option UDPConn)
    (turns1 turns2 : list Turn) (t : Turn) :
  closed_seen t = true ->
  recv Unpack l (turns1 ++ t :: turns2) = recv Unpack l (turns1 ++ [t]) /\
  recv_returned (recv Unpack l (turns1 ++ t :: turns2)) = true.
Proof.
  intros Hclosed. destruct l as [u|]; simpl; [|done].
  induction turns1 as [|t1 turns1 [IH1 IH2]]; simpl.
  - by rewrite Hclosed.
  - destruct (closed_seen t1); [done|].
    destruct (read_result t1) as [data [e|]]; [done|].
    destruct (Unpack data) as [msg [e|]]; simpl.
    + split; [by rewrite IH1 | done].
    + destruct (msg_taken t1); simpl; [|done].
      split; [by rewrite IH1 | done].
Qed.

Lemma recv_returns_when_closed_witness :
  recv unpack_toy (Some 3%Z)
    ([mkTurn false ([x00], None) true] ++
     mkTurn true ([], None) true :: [mkTurn false ([x00], None) true]) =
  recv unpack_toy (Some 3%Z)
    ([mkTurn false ([x00], None) true] ++ [mkTurn true ([], None) true]) /\
  recv_returned
    (recv unpack_toy (Some 3%Z)
       ([mkTurn false ([x00], None) true] ++
        mkTurn true ([], None) true :: [mkTurn false ([x00], None) true])) = true.
Proof.
  apply (recv_returns_when_closed unpack_toy (Some 3%Z)
           [mkTurn false ([x00], None) true]
           [mkTurn false ([x00], None) true] (mkTurn true ([], None) true)).
  reflexivity.
Defined.

(** ** Aggregation across the messages of one lookup *)

(** The completion check changes nothing that [complete()] reads: it only
    sets [sent], and a follow-up question leaves the map alone. *)
Lemma on_message_known `{E : Collaborators} c resp ready w n :
  addr_known (inprogress (after c (resp, ready) w) !! n) =
    addr_known ((range_answers (Answer resp) (inprogress w) None).1 !! n) /\
  port_known (inprogress (after c (resp, ready) w) !! n) =
    port_known ((range_answers (Answer resp) (inprogress w) None).1 !! n) /\
  txt_known (inprogress (after c (resp, ready) w) !! n) =
    txt_known ((range_answers (Answer resp) (inprogress w) None).1 !! n).
Proof.
  unfold after. pose proof (on_message_effects c resp ready w) as H.
  destruct (last_key (Answer resp)) as [k|]; [|by rewrite H].
  destruct H as (s & Hs & ->). destruct (complete s && negb (sent s)).
  - assert (Hmap : forall w0 : World,
              inprogress ((if ready then deliver k else drop k) w0) =
              inprogress w0) by (intros w0; by destruct ready).
    rewrite Hmap. simpl. rewrite lookup_insert. case_decide; [|done].
    subst n. by rewrite Hs.
  - pose proof (follow_up_effects c (Name s)
                  (set_inprogress
                     (range_answers (Answer resp) (inprogress w) None).1 w))
      as (F1 & _).
    simpl in *. by rewrite F1.
Qed.

(** What the loop has gathered for a name when it reaches the timeout. *)
Lemma query_loop_known `{E : Collaborators} c n evs : forall w,
  Forall (fun ev => Exists (fun r => rr_key r <> None) (Answer ev.1)) evs ->
  Forall (fun r => carries_value r = true) (answers_of evs) ->
  exists w', query_loop c evs w = Returned None w' /\
    addr_known (inprogress w' !! n) =
      addr_known (inprogress w !! n) || existsb (is_addr_for n) (answers_of evs) /\
    port_known (inprogress w' !! n) =
      port_known (inprogress w !! n) || existsb (is_srv_for n) (answers_of evs) /\
    txt_known (inprogress w' !! n) =
      txt_known (inprogress w !! n) || existsb (is_txt_for n) (answers_of evs).
Proof.
  induction evs as [|[resp ready] evs IH]; intros w Hmatched Hvalues.
  - exists w. simpl. by rewrite !orb_false_r.
  - apply Forall_cons in Hmatched as [Hfirst Hmatched].
    unfold answers_of in Hvalues. simpl in Hvalues.
    apply Forall_app in Hvalues as [Hv1 Hv2].
    rewrite query_loop_cons.
    pose proof (on_message_known c resp ready w n) as (Ka & Kp & Kt).
    unfold after in *.
    destruct (on_message c (resp, ready) w) as [w1|w1] eqn:Hstep.
    + destruct (IH w1 Hmatched Hv2) as (w' & Hrun & La & Lp & Lt).
      exists w'. split; [done|].
      unfold answers_of. simpl. fold (answers_of evs).
      rewrite !existsb_app, La, Lp, Lt, Ka, Kp, Kt.
      rewrite range_addr_known, range_port_known, range_txt_known by done.
      by rewrite !orb_assoc.
    + exfalso. simpl in Hfirst.
      apply Exists_exists in Hfirst as (r & Hr & Hk).
      assert (Hnone : Forall (fun r => rr_key r = None) (Answer resp))
        by (apply (on_message_panics_iff c resp ready w); eauto).
      rewrite Forall_forall in Hnone. by apply Hk, Hnone.
Qed.

(** C1, as the code has it: let the first question of [query] be sent and
    every received message hold at least one answer that the switch
    matches, so that the loop handles them all and returns.  When every
    [SRV] carries a nonzero port and every [A]/[AAAA] a non-nil address,
    the entry of a name is complete at the end exactly when an address
    record, an [SRV] record and a [TXT] record for the name are among the
    answers, in whatever order they arrive and however they are spread
    over the messages. *)
Theorem query_completes_iff_each_kind_seen_any_order `{E : Collaborators}
    (c : client) (service : string) (timeout : Z)
    (evs evs' : list (Msg * bool)) (w : World) (n : string) :
  (Pack (SetQuestion service TypeANY)).2 = None ->
  Forall (fun ev => Exists (fun r => rr_key r <> None) (Answer ev.1)) evs' ->
  Forall (fun r => carries_value r = true) (answers_of evs) ->
  answers_of evs ≡ₚ answers_of evs' ->
  exists w',
    query c service timeout evs' w = Returned None w' /\
    (entry_complete n (inprogress w') = true <->
     existsb (is_addr_for n) (answers_of evs) = true /\
     existsb (is_srv_for n) (answers_of evs) = true /\
     existsb (is_txt_for n) (answers_of evs) = true).
Proof.
  intros Hpack Hmatched Hvalues Hperm.
  assert (Hvalues' : Forall (fun r => carries_value r = true) (answers_of evs'))
    by (by rewrite <- Hperm).
  rewrite query_after_send by done.
  destruct (query_loop_known c n evs'
              (set_inprogress ∅
                 (sendQuery c (SetQuestion service TypeANY) w).2)
              Hmatched Hvalues') as (w' & Hrun & Ha & Hp & Ht).
  exists w'. split; [done|].
  rewrite entry_complete_known, Ha, Hp, Ht. simpl. rewrite lookup_empty. simpl.
  rewrite <- !(existsb_Permutation _ _ _ Hperm), !andb_true_iff. tauto.
Qed.

Lemma query_completes_iff_each_kind_seen_any_order_witness :
  exists w',
    query (E := unreachable_net) both_open "_foobar._tcp.local." 50000000
      one_by_one_srv_first world0 = Returned None w' /\
    (entry_complete "n" (inprogress w') = true <->
     existsb (is_addr_for "n") (answers_of one_by_one) = true /\
     existsb (is_srv_for "n") (answers_of one_by_one) = true /\
     existsb (is_txt_for "n") (answers_of one_by_one) = true).
Proof.
  apply (query_completes_iff_each_kind_seen_any_order (E := unreachable_net)
           both_open "_foobar._tcp.local." 50000000
           one_by_one one_by_one_srv_first world0 "n").
  - reflexivity.
  - repeat (constructor; [apply Exists_cons_hd; discriminate|]). constructor.
  - repeat (constructor; [reflexivity|]). constructor.
  - symmetry. apply (Permutation_cons_append
                       [RR_A "n" localhost; RR_TXT "n" ["x"]] (RR_SRV "n" 80 "n")).
Defined.

(** C1 as stated fails: in three messages an address record, an [SRV]
    record and a [TXT] record for the name are handled by the loop of
    [query], which returns, yet the entry is not complete at the end,
    because the [SRV] record carries port 0. *)
Lemma query_each_kind_seen_but_incomplete :
  ~ (entry_complete "n"
       (inprogress
          (final
             (query (E := unreachable_net) both_open "_foobar._tcp.local."
                50000000 one_by_one_port_zero world0))) = true <->
     existsb (is_addr_for "n") (answers_of one_by_one_port_zero) = true /\
     existsb (is_srv_for "n") (answers_of one_by_one_port_zero) = true /\
     existsb (is_txt_for "n") (answers_of one_by_one_port_zero) = true).
Proof.
  intros [_ H].
  assert (Hrun : entry_complete "n"
       (inprogress
          (final
             (query (E := unreachable_net) both_open "_foobar._tcp.local."
                50000000 one_by_one_port_zero world0))) = false)
    by (vm_compute; reflexivity).
  rewrite Hrun in H. discriminate H. repeat split; vm_compute; reflexivity.
Qed.

(** The three records arriving one per message do complete the entry,
    although none of the three messages holds them all. *)
Example one_by_one_completes :
  exists w',
    query (E := unreachable_net) both_open "_foobar._tcp.local." 50000000
      one_by_one world0 = Returned None w' /\
    entry_complete "n" (inprogress w') = true /\
    entries w' = ["n"] /\
    asked w' = [SetQuestion "_foobar._tcp.local." TypeANY;
                SetQuestion "n" TypeANY; SetQuestion "n" TypeANY].
Proof. eexists. split; [vm_compute; reflexivity|]. repeat split. Qed.
